(** * ChopshopSignin: the sign-in model of [signinapp/model.py]

    A shallow embedding of the identity canonicaliser ([mk_hash],
    [canonical_name] and the two patterns they use), of the rows of the
    relational schema, and of [SqliteModel] ([scan], [get_stamps],
    [get_active], [export]), followed by the properties of the
    specification.

    Conventions.
    - A Python [str] is a list of code points below 256 ([ascii]); case
      mapping, white space and digits follow Python on that range.  The
      canonicaliser is given a second time in [Wide], over an alphabet that
      adds the letters beyond that range which the name pattern accepts;
      the two agree on the code points below 256.
    - A [datetime] is an integer count of clock ticks ([Z]); a [timedelta]
      is the difference of two of them.
    - Tables are lists of rows in insertion order; the columns are those of
      the source, time columns being populated.
    - Code that reads or writes the database runs in a state and exception
      monad over the tables. *)

From Stdlib Require Import List ZArith NArith Bool Ascii String Lia Arith.
From Stdlib Require Import DecimalString.
Import ListNotations.

Set Implicit Arguments.

Local Open Scope bool_scope.
Local Open Scope N_scope.

(** ** Python strings *)

Definition str := list ascii.

Definition lit (s : string) : str := list_ascii_of_string s.

Definition ord (c : ascii) : N := N_of_ascii c.

Definition chr (n : N) : ascii := ascii_of_N n.

Definition between (lo hi : N) (c : ascii) : bool :=
  (N.leb lo (ord c)) && (N.leb (ord c) hi).

Definition is_char (x c : ascii) : bool := Ascii.eqb x c.

Arguments is_char x%_char c : simpl never.

Definition is_newline (c : ascii) : bool := N.eqb (ord c) 10.

Fixpoint str_eqb (a b : str) : bool :=
  match a, b with
  | [], [] => true
  | x :: a', y :: b' => Ascii.eqb x y && str_eqb a' b'
  | _, _ => false
  end.

(** [c.lower()] for one code point: A-Z, and the Latin-1 capitals
    U+00C0..U+00DE without the multiplication sign. *)
Definition lower_char (c : ascii) : ascii :=
  if between 65 90 c then chr (ord c + 32)
  else if between 192 222 c && negb (N.eqb (ord c) 215) then chr (ord c + 32)
  else c.

(** [c.upper()] for one code point whose upper case is again below 256: a-z,
    and U+00E0..U+00FE without the division sign.  The micro sign and y with
    diaeresis have their upper case above 255 and the sharp s has none of one
    code point; they are left as they are, and they belong to no character
    class of the patterns below. *)
Definition upper_char (c : ascii) : ascii :=
  if between 97 122 c then chr (ord c - 32)
  else if between 224 254 c && negb (N.eqb (ord c) 247) then chr (ord c - 32)
  else c.

(** [s.lower()] *)
Definition lower (s : str) : str := map lower_char s.

(** [s.encode("utf-8")]: one byte below U+0080, two bytes from there on. *)
Definition utf8_char (c : ascii) : list ascii :=
  if N.ltb (ord c) 128 then [c]
  else [chr (192 + ord c / 64); chr (128 + ord c mod 64)].

Definition encode_utf8 (s : str) : list ascii := flat_map utf8_char s.

(** ** [base64.b64encode] *)

Definition b64_table : str :=
  lit "ABCDEFGHIJKLMNOPQRSTUVWXYZabcdefghijklmnopqrstuvwxyz0123456789+/".

Definition b64_digit (n : N) : ascii :=
  nth (N.to_nat (n mod 64)) b64_table "="%char.

Fixpoint b64encode (bs : list ascii) : str :=
  match bs with
  | [] => []
  | [a] =>
      let n := ord a * 65536 in
      [b64_digit (n / 262144); b64_digit (n / 4096); "="%char; "="%char]
  | [a; b] =>
      let n := ord a * 65536 + ord b * 256 in
      [b64_digit (n / 262144); b64_digit (n / 4096); b64_digit (n / 64);
       "="%char]
  | a :: b :: c :: rest =>
      let n := ord a * 65536 + ord b * 256 + ord c in
      b64_digit (n / 262144) :: b64_digit (n / 4096) :: b64_digit (n / 64)
        :: b64_digit n :: b64encode rest
  end.

(** [mk_hash]: the base64 text of the lower-cased name.  The encoder's
    output is ASCII, so decoding it as UTF-8 gives the same characters. *)
Definition mk_hash (name : str) : str :=
  b64encode (encode_utf8 (lower name)).

(** ** Regular expressions, matched as [re.match] does

    The matcher backtracks in Python's order: a quantifier takes as many
    repetitions as it can and gives them back one at a time, an optional part
    is tried before its absence, and the left alternative before the right
    one. *)

Inductive regex : Type :=
| Chr (p : ascii -> bool)
| Seq (r1 r2 : regex)
| Alt (r1 r2 : regex)
| Opt (r : regex)
| Star (r : regex)
| Group (name : string) (r : regex)
| Bos
| Eos.

Definition Plus (r : regex) : regex := Seq r (Star r).

Fixpoint Lit (s : str) (f : ascii -> ascii -> bool) : regex :=
  match s with
  | [] => Opt (Chr (fun _ => false))
  | [c] => Chr (f c)
  | c :: s' => Seq (Chr (f c)) (Lit s' f)
  end.

Definition captures := list (string * str).

Definition cont := str -> captures -> option captures.

(** The greedy loop of [r*]: [m1] matches [r] once; another repetition is
    tried first, and must consume input to be taken. *)
Fixpoint star_loop (m1 : str -> captures -> cont -> option captures)
  (k : cont) (n : nat) (s : str) (caps : captures) : option captures :=
  match n with
  | O => k s caps
  | S n' =>
      match m1 s caps
               (fun s1 c1 =>
                  if Nat.ltb (List.length s1) (List.length s)
                  then star_loop m1 k n' s1 c1
                  else None) with
      | Some m => Some m
      | None => k s caps
      end
  end.

(** [mt r whole s caps k]: match [r] at the head of the remaining input [s]
    of the subject [whole], then go on with [k]; [None] makes the caller try
    its next choice. *)
Fixpoint mt (r : regex) (whole s : str) (caps : captures) (k : cont)
  {struct r} : option captures :=
  match r with
  | Chr p =>
      match s with
      | c :: s' => if p c then k s' caps else None
      | [] => None
      end
  | Seq r1 r2 => mt r1 whole s caps (fun s1 c1 => mt r2 whole s1 c1 k)
  | Alt r1 r2 =>
      match mt r1 whole s caps k with
      | Some m => Some m
      | None => mt r2 whole s caps k
      end
  | Opt r1 =>
      match mt r1 whole s caps k with
      | Some m => Some m
      | None => k s caps
      end
  | Star r1 => star_loop (mt r1 whole) k (List.length s) s caps
  | Group name r1 =>
      mt r1 whole s caps
         (fun s1 c1 =>
            k s1 ((name, firstn (List.length s - List.length s1)%nat s) :: c1))
  | Bos => if Nat.eqb (List.length s) (List.length whole) then k s caps else None
  | Eos =>
      match s with
      | [] => k s caps
      | [c] => if is_newline c then k s caps else None
      | _ => None
      end
  end.

(** [pattern.match(s)] *)
Definition re_match (r : regex) (s : str) : option captures :=
  mt r s s [] (fun _ caps => Some caps).

(** [m[name]] for a group that took part in the match *)
Fixpoint group (name : string) (m : captures) : str :=
  match m with
  | [] => []
  | (n, v) :: m' => if String.eqb n name then v else group name m'
  end.

(** *** Character classes *)

Definition is_upper_az (c : ascii) : bool := between 65 90 c.
Definition is_lower_az (c : ascii) : bool := between 97 122 c.

(** [\d] *)
Definition is_digit (c : ascii) : bool := between 48 57 c.

(** [\s]: the code points below 256 for which [str.isspace] holds *)
Definition is_space (c : ascii) : bool :=
  between 9 13 c || between 28 32 c || N.eqb (ord c) 133
  || N.eqb (ord c) 160.

(** [[a-zA-Z ']] *)
Definition name_class (c : ascii) : bool :=
  is_lower_az c || is_upper_az c || is_char " " c || is_char "'" c.

(** [[ -]] *)
Definition space_or_hyphen (c : ascii) : bool :=
  is_char " " c || is_char "-" c.

(** [[A-Za-z\d+/]] *)
Definition b64_class (c : ascii) : bool :=
  is_upper_az c || is_lower_az c || is_digit c || is_char "+" c
  || is_char "/" c.

(** A class under [re.IGNORECASE]: a character is in it when one of its case
    variants is. *)
Definition ignorecase (p : ascii -> bool) (c : ascii) : bool :=
  p c || p (lower_char c) || p (upper_char c).

(** A literal character under [re.IGNORECASE] *)
Definition ignorecase_lit (l c : ascii) : bool :=
  Ascii.eqb (lower_char c) (lower_char l).

(** *** The two patterns

    [NAME_RE] carries the inline flag [(?i)] inside its first group; the
    interpreters that accept it there apply it to the whole pattern, so every
    literal and class of [NAME_RE] is matched without regard to case.

    [NAME_RE], part by part: the start of the string; optionally the group
    [mentor], the word mentor followed by any number of spaces and hyphens;
    the group [last], one or more of [[a-zA-Z ']]; a comma; any white space;
    the group [first], one or more of [[a-zA-Z ']]; the end of the string, or
    the place before its last newline. *)
Definition NAME_RE : regex :=
  Seq Bos
   (Seq (Opt (Group "mentor"
                (Seq (Lit (lit "mentor") ignorecase_lit)
                     (Star (Chr (ignorecase space_or_hyphen))))))
   (Seq (Group "last" (Plus (Chr (ignorecase name_class))))
   (Seq (Chr (ignorecase_lit ","%char))
   (Seq (Star (Chr (ignorecase is_space)))
   (Seq (Group "first" (Plus (Chr (ignorecase name_class))))
        Eos))))).

(** [[A-Za-z\d+/]{n}] *)
Definition b64_times (n : nat) : regex :=
  Nat.iter (n - 1)%nat (fun r => Seq (Chr b64_class) r) (Chr b64_class).

(** [HASH_RE], part by part: the start of the string; any number of groups
    of four base64 digits; optionally three digits and one padding sign, or
    two digits and two padding signs; the end of the string, or the place
    before its last newline.  It carries no flag. *)
Definition HASH_RE : regex :=
  Seq Bos
   (Seq (Star (b64_times 4))
   (Seq (Opt (Alt (Seq (b64_times 3) (Chr (is_char "=")))
                  (Seq (b64_times 2)
                       (Seq (Chr (is_char "=")) (Chr (is_char "="))))))
        Eos)).

(** ** [canonical_name] *)

Definition canonical_name (name : str) : option str :=
  match re_match NAME_RE name with
  | Some m => Some (mk_hash (group "first" m ++ lit " " ++ group "last" m))
  | None =>
      match re_match HASH_RE name with
      | Some _ => Some name
      | None => None
      end
  end.

(** ** The rows of the schema *)

Local Close Scope N_scope.
Local Open Scope Z_scope.

Module Role.
Record t := mk {
  id : Z;
  name : str;
  admin : bool;
  mentor : bool;
  can_display : bool;
  autoload : bool;
  can_see_subteam : bool
}.
End Role.

Module Subteam.
Record t := mk { id : Z; name : str }.
End Subteam.

Module EventType.
Record t := mk {
  id : Z;
  name : str;
  description : str;
  autoload : bool
}.
End EventType.

Module User.
Record t := mk {
  id : Z;
  name : str;
  code : str;
  role_id : Z;
  subteam_id : option Z;
  approved : bool;
  active : bool
}.
End User.

Module Event.
Record t := mk {
  id : Z;
  name : str;
  description : str;
  code : str;
  location : str;
  start : Z;
  end_ : Z;
  type_id : option Z;
  enabled : bool
}.

(** [is_active], read at the instant [now] that [datetime.now()] gives *)
Definition is_active (self : t) (now : Z) : bool :=
  Bool.eqb (enabled self) true && (start self <? now) && (now <? end_ self).
End Event.

Module Active.
Record t := mk {
  id : Z;
  user_id : Z;
  event_id : Z;
  start : Z
}.
End Active.

Module Stamps.
Record t := mk {
  id : Z;
  user_id : Z;
  event_id : Z;
  start : Z;
  end_ : Z
}.

Definition elapsed (self : t) : Z := end_ self - start self.
End Stamps.

Module StampEvent.
Record t := mk { name : str; event : str }.
End StampEvent.

(** The tables the model reads and writes *)
Record DB := mkDB {
  users : list User.t;
  roles : list Role.t;
  subteams : list Subteam.t;
  events : list Event.t;
  event_types : list EventType.t;
  active : list Active.t;
  stamps : list Stamps.t
}.

(** ** Printing a [timedelta]

    A tick is a microsecond; [str(timedelta)] prints the days when there are
    some, then hours, minutes and seconds, then the microseconds when there
    are some. *)

Definition dec (n : Z) : str :=
  lit (DecimalString.NilZero.string_of_int (Z.to_int n)).

Definition zfill (width : nat) (s : str) : str :=
  repeat "0"%char (width - List.length s) ++ s.

Definition str_timedelta (d : Z) : str :=
  let days := d / 86400000000 in
  let rest := d mod 86400000000 in
  let seconds := rest / 1000000 in
  let microseconds := rest mod 1000000 in
  let mm := seconds / 60 in
  let ss := seconds mod 60 in
  let hh := mm / 60 in
  let mm := mm mod 60 in
  let s := dec hh ++ lit ":" ++ zfill 2 (dec mm) ++ lit ":" ++ zfill 2 (dec ss) in
  let s :=
    if days =? 0 then s
    else dec days ++ lit " day"
           ++ (if Z.abs days =? 1 then [] else lit "s") ++ lit ", " ++ s in
  if microseconds =? 0 then s
  else s ++ lit "." ++ zfill 6 (dec microseconds).

(** ** The database monad: state and exceptions *)

Inductive exn := MultipleResultsFound | AttributeError.

Inductive Res (A : Type) : Type :=
| Ret (a : A) (db : DB)
| Raise (e : exn) (db : DB).

Arguments Ret {A} a db.
Arguments Raise {A} e db.

Definition M (A : Type) : Type := DB -> Res A.

Definition ret {A} (a : A) : M A := fun db => Ret a db.

Definition raise {A} (e : exn) : M A := fun db => Raise e db.

Definition bind {A B} (c : M A) (k : A -> M B) : M B :=
  fun db =>
    match c db with
    | Ret a db' => k a db'
    | Raise e db' => Raise e db'
    end.

Definition gets {A} (f : DB -> A) : M A := fun db => Ret (f db) db.

Definition modify (f : DB -> DB) : M unit := fun db => Ret tt (f db).

Notation "x <- c ;; k" := (bind c (fun x => k))
  (at level 61, c at next level, right associativity).
Notation "c ;;; k" := (bind c (fun _ => k))
  (at level 61, right associativity).

(** The tables a computation leaves behind, and what it returns *)
Definition state_of {A} (r : Res A) : DB :=
  match r with Ret _ db => db | Raise _ db => db end.


Fixpoint mapM {A B} (f : A -> M B) (l : list A) : M (list B) :=
  match l with
  | [] => ret []
  | x :: l' => y <- f x ;; ys <- mapM f l' ;; ret (y :: ys)
  end.

(** [Query.one_or_none] *)
Definition one_or_none {A} (rows : list A) : M (option A) :=
  match rows with
  | [] => ret None
  | [x] => ret (Some x)
  | _ => raise MultipleResultsFound
  end.

(** ** Relationships and queries *)

(** Python's truth value of an optional string, as in [if name:] and
    [if not code:] *)
Definition truthy (s : option str) : bool :=
  match s with
  | Some (_ :: _) => true
  | _ => false
  end.

Definition opt_str_eqb (a : str) (b : option str) : bool :=
  match b with
  | Some b' => str_eqb a b'
  | None => false
  end.

Definition opt_Z_eqb (a : option Z) (b : Z) : bool :=
  match a with
  | Some a' => a' =? b
  | None => false
  end.

(** [user.role], [stamp.user], [stamp.event], [active.user], [active.event] *)
Definition role_of (db : DB) (u : User.t) : option Role.t :=
  find (fun r => Role.id r =? User.role_id u) (roles db).

Definition user_by_id (db : DB) (uid : Z) : option User.t :=
  find (fun u => User.id u =? uid) (users db).

Definition event_by_id (db : DB) (eid : Z) : option Event.t :=
  find (fun e => Event.id e =? eid) (events db).

(** [query.join(User).filter(...)]: one row for each user the row refers to
    that passes the filter *)
Definition join_User {A} (user_id : A -> Z) (f : User.t -> bool) (db : DB)
  (rows : list A) : list A :=
  flat_map
    (fun row =>
       map (fun _ => row)
           (filter (fun u => (User.id u =? user_id row) && f u) (users db)))
    rows.

(** [query.join(Event).filter(...)] *)
Definition join_Event {A} (event_id : A -> Z) (f : Event.t -> bool) (db : DB)
  (rows : list A) : list A :=
  flat_map
    (fun row =>
       map (fun _ => row)
           (filter (fun e => (Event.id e =? event_id row) && f e) (events db)))
    rows.

(** [User.query.filter_by(code=code)] *)
Definition User_filter_by_code (code : str) (db : DB) : list User.t :=
  filter (fun u => str_eqb (User.code u) code) (users db).

(** [Active.query.join(User).filter_by(code=code)] *)
Definition Active_join_User_filter_by_code (code : str) (db : DB)
  : list Active.t :=
  join_User Active.user_id (fun u => str_eqb (User.code u) code) db
            (active db).

(** What a filter on [Stamps] keeps, row by row, on given tables *)
Definition criterion := DB -> Stamps.t -> bool.

(** [Stamps.event.enabled == True], the argument of the filter that
    [get_stamps] and [export] start with.  [Stamps.event] is read off the
    class: it is the relationship attribute, not an event, and it has no
    attribute [enabled], so the expression raises before a query is built. *)
Definition Stamps_event_enabled : M criterion := raise AttributeError.

(** The key SQLite gives a new row: one more than the largest in use *)
Definition next_id (ids : list Z) : Z := 1 + fold_right Z.max 0 ids.

(** [db.session.add(Active(user=user, event=ev))]; the row gets its key and
    the server default of [start], the database's clock [db_now], when the
    commit that follows writes it. *)
Definition session_add_Active (db_now : Z) (user : User.t) (ev : Event.t)
  : M Active.t :=
  fun db =>
    let row :=
      Active.mk (next_id (map Active.id (active db))) (User.id user)
                (Event.id ev) db_now in
    Ret row
        (mkDB (users db) (roles db) (subteams db) (events db) (event_types db)
              (active db ++ [row]) (stamps db)).

(** [db.session.add(Stamps(user=user, event=ev, start=start))]; [end] is the
    server default, the database's clock. *)
Definition session_add_Stamps (db_now : Z) (user : User.t) (ev : Event.t)
  (start : Z) : M Stamps.t :=
  fun db =>
    let row :=
      Stamps.mk (next_id (map Stamps.id (stamps db))) (User.id user)
                (Event.id ev) start db_now in
    Ret row
        (mkDB (users db) (roles db) (subteams db) (events db) (event_types db)
              (active db) (stamps db ++ [row])).

(** [db.session.delete(active)] *)
Definition session_delete_Active (a : Active.t) : M unit :=
  modify
    (fun db =>
       mkDB (users db) (roles db) (subteams db) (events db) (event_types db)
            (filter (fun x => negb (Active.id x =? Active.id a)) (active db))
            (stamps db)).

(** [db.session.commit()]: the rows added and deleted above are the
    transaction it writes. *)
Definition session_commit : M unit := ret tt.

(** [User.human_readable]; reading [mentor] off a missing role raises. *)
Definition human_readable (self : User.t) : M str :=
  role <- gets (fun db => role_of db self) ;;
  match role with
  | None => raise AttributeError
  | Some r =>
      ret ((if Role.mentor r then lit "*" else []) ++ User.name self)
  end.

(** ** Rendering rows *)

Inductive value :=
| VStr (s : str)
| VDatetime (t : Z)
| VTimedelta (d : Z).

Definition related {A} (x : option A) : M A :=
  match x with
  | Some a => ret a
  | None => raise AttributeError
  end.

(** [Active.as_dict] *)
Definition Active_as_dict (self : Active.t) : M (list (string * value)) :=
  user <- gets (fun db => user_by_id db (Active.user_id self)) ;;
  user <- related user ;;
  hr <- human_readable user ;;
  ev <- gets (fun db => event_by_id db (Active.event_id self)) ;;
  ev <- related ev ;;
  ret [("user"%string, VStr hr);
       ("start"%string, VDatetime (Active.start self));
       ("event"%string, VStr (Event.name ev))].

(** [Stamps.as_dict] *)
Definition Stamps_as_dict (self : Stamps.t) : M (list (string * value)) :=
  user <- gets (fun db => user_by_id db (Stamps.user_id self)) ;;
  user <- related user ;;
  hr <- human_readable user ;;
  ev <- gets (fun db => event_by_id db (Stamps.event_id self)) ;;
  ev <- related ev ;;
  ret [("user"%string, VStr hr);
       ("elapsed"%string, VStr (str_timedelta (Stamps.elapsed self)));
       ("start"%string, VDatetime (Stamps.start self));
       ("end"%string, VDatetime (Stamps.end_ self));
       ("event"%string, VStr (Event.name ev))].

(** [Stamps.as_list] *)
Definition Stamps_as_list (self : Stamps.t) : M (list value) :=
  user <- gets (fun db => user_by_id db (Stamps.user_id self)) ;;
  user <- related user ;;
  hr <- human_readable user ;;
  ev <- gets (fun db => event_by_id db (Stamps.event_id self)) ;;
  ev <- related ev ;;
  ret [VStr hr; VDatetime (Stamps.start self); VDatetime (Stamps.end_ self);
       VTimedelta (Stamps.elapsed self); VStr (Event.name ev)].

(** ** [SqliteModel] *)

Module SqliteModel.

(** The rows [query.all()] gives in [get_stamps], for the criterion of the
    first filter *)
Definition get_stamps_query (enabled : criterion) (name event : option str)
  (db : DB) : list Stamps.t :=
  let query := filter (enabled db) (stamps db) in
  let query :=
    if truthy name then
      let code := canonical_name (match name with Some n => n | None => [] end) in
      join_User Stamps.user_id (fun u => opt_str_eqb (User.code u) code) db
                query
    else query in
  let query :=
    if truthy event then
      join_Event Stamps.event_id (fun e => opt_str_eqb (Event.code e) event)
                 db query
    else query in
  query.

Definition get_stamps (name event : option str)
  : M (list (list (string * value))) :=
  enabled <- Stamps_event_enabled ;;
  rows <- gets (get_stamps_query enabled name event) ;;
  mapM Stamps_as_dict rows.

(** The rows [query.all()] gives in [get_active] *)
Definition get_active_query (event : option str) (db : DB)
  : list Active.t :=
  let query := active db in
  if truthy event then
    join_Event Active.event_id (fun e => opt_str_eqb (Event.code e) event)
               db query
  else query.

Definition get_active (event : option str)
  : M (list (list (string * value))) :=
  rows <- gets (get_active_query event) ;;
  mapM Active_as_dict rows.

(** The rows [query.all()] gives in [export], for the criterion of the
    first filter *)
Definition export_query (enabled : criterion) (name : option str)
  (start end_ : option Z) (type_ : option EventType.t)
  (subteam : option Subteam.t) (db : DB) : list Stamps.t :=
  let query := filter (enabled db) (stamps db) in
  let query :=
    if truthy name then
      let code := mk_hash (match name with Some n => n | None => [] end) in
      join_User Stamps.user_id (fun u => str_eqb (User.code u) code) db query
    else query in
  let query :=
    match start with
    | Some start => filter (fun s => Stamps.start s <? start) query
    | None => query
    end in
  let query :=
    match end_ with
    | Some end_ => filter (fun s => Stamps.end_ s >? end_) query
    | None => query
    end in
  let query :=
    match type_ with
    | Some type_ =>
        join_Event Stamps.event_id
                   (fun e => opt_Z_eqb (Event.type_id e) (EventType.id type_))
                   db query
    | None => query
    end in
  let query :=
    match subteam with
    | Some subteam =>
        join_User Stamps.user_id
                  (fun u => opt_Z_eqb (User.subteam_id u) (Subteam.id subteam))
                  db query
    | None => query
    end in
  query.

Definition export_headers : list value :=
  [VStr (lit "Name"); VStr (lit "Start"); VStr (lit "End");
   VStr (lit "Elapsed"); VStr (lit "Event")].

Definition export (name : option str) (start end_ : option Z)
  (type_ : option EventType.t) (subteam : option Subteam.t)
  (headers : bool) : M (list (list value)) :=
  enabled <- Stamps_event_enabled ;;
  rows <- gets (export_query enabled name start end_ type_ subteam) ;;
  result <- mapM Stamps_as_list rows ;;
  let result := if headers then export_headers :: result else result in
  ret result.

(** [scan]; [now] is Python's clock, read by [is_active], and [db_now] the
    database's clock at the commit. *)
Definition scan (now db_now : Z) (ev : option Event.t) (name : str)
  : M (option StampEvent.t) :=
  match ev with
  | None => ret None
  | Some ev =>
      if negb (Event.is_active ev now) then ret None
      else
        let code := canonical_name name in
        if negb (truthy code) then ret None
        else
          let code := match code with Some c => c | None => [] end in
          user <- bind (gets (User_filter_by_code code)) one_or_none ;;
          if negb (match user with
                   | Some user => User.approved user
                   | None => false
                   end)
          then ret None
          else
            match user with
            | None => ret None
            | Some user =>
                active <- bind (gets (Active_join_User_filter_by_code code))
                               one_or_none ;;
                match active with
                | None =>
                    _ <- session_add_Active db_now user ev ;;
                    session_commit ;;;
                    hr <- human_readable user ;;
                    ret (Some (StampEvent.mk hr (lit "in")))
                | Some active =>
                    session_delete_Active active ;;;
                    stamp <- session_add_Stamps db_now user ev
                               (Active.start active) ;;
                    session_commit ;;;
                    let sign :=
                      lit "out after "
                        ++ str_timedelta (Stamps.elapsed stamp) in
                    hr <- human_readable user ;;
                    ret (Some (StampEvent.mk hr sign))
                end
            end
  end.

End SqliteModel.

(** ** Notions the properties are stated with *)

(** Two strings that differ only in the case of their letters *)
Definition same_modulo_case (a b : str) : Prop := lower a = lower b.

(** A pattern all of whose literals and classes are blind to case *)
Fixpoint case_blind (r : regex) : Prop :=
  match r with
  | Chr p => forall c, p c = p (lower_char c)
  | Seq r1 r2 | Alt r1 r2 => case_blind r1 /\ case_blind r2
  | Opt r1 | Star r1 | Group _ r1 => case_blind r1
  | Bos | Eos => True
  end.

Definition caps_rel (c c' : captures) : Prop :=
  Forall2 (fun x y => fst x = fst y /\ lower (snd x) = lower (snd y)) c c'.

Definition res_rel (a b : option captures) : Prop :=
  match a, b with
  | Some x, Some y => caps_rel x y
  | None, None => True
  | _, _ => False
  end.

Definition cont_rel (k k' : cont) : Prop :=
  forall s s' c c',
    lower s = lower s' -> caps_rel c c' -> res_rel (k s c) (k' s' c').

(** A string of base64 digits in groups of four, whose last group may end in
    one or two padding signs *)
Fixpoint b64_shape (s : str) : bool :=
  match s with
  | [] => true
  | a :: b :: c :: d :: rest =>
      b64_class a && b64_class b
      && ((b64_class c && b64_class d && b64_shape rest)
          || (match rest with [] => true | _ => false end
              && ((b64_class c && is_char "=" d)
                  || (is_char "=" c && is_char "=" d))))
  | _ => false
  end.

(** What [HASH_RE] still has to match once its groups of four are taken *)
Definition hash_tail (w : str) : cont :=
  fun s1 c1 =>
    mt (Seq (Opt (Alt (Seq (b64_times 3) (Chr (is_char "=")))
                      (Seq (b64_times 2)
                           (Seq (Chr (is_char "=")) (Chr (is_char "="))))))
            Eos)
       w s1 c1 (fun _ caps => Some caps).

(** A database with one approved user, whose key is [code], and one role *)
Definition single_user_db (code : str) : DB :=
  mkDB [User.mk 1 (lit "Jane Doe") code 1 None true true]
       [Role.mk 1 (lit "student") false false false false false]
       [] [] [] [] [].

(** The continuation [k] succeeds with [m] on some suffix of [s] *)
Definition reaches (k : cont) (s : str) (m : captures) : Prop :=
  exists s' c', k s' c' = Some m /\ exists u, s = u ++ s'.

(** [ev and ev.is_active], the test [scan] starts with *)
Definition ev_and_is_active (ev : option Event.t) (now : Z) : bool :=
  match ev with
  | Some e => Event.is_active e now
  | None => false
  end.

Fixpoint nodupb {A} (eqb : A -> A -> bool) (l : list A) : bool :=
  match l with
  | [] => true
  | x :: l' => negb (existsb (eqb x) l') && nodupb eqb l'
  end.

(** What the schema enforces: primary keys, and the unique columns
    [users.code] and [events.code] *)
Definition constraints (db : DB) : bool :=
  nodupb Z.eqb (map User.id (users db))
  && nodupb str_eqb (map User.code (users db))
  && nodupb Z.eqb (map Role.id (roles db))
  && nodupb Z.eqb (map Subteam.id (subteams db))
  && nodupb Z.eqb (map Event.id (events db))
  && nodupb str_eqb (map Event.code (events db))
  && nodupb Z.eqb (map EventType.id (event_types db))
  && nodupb Z.eqb (map Active.id (active db))
  && nodupb Z.eqb (map Stamps.id (stamps db)).

(** The open sessions of a user *)
Definition sessions_of (db : DB) (uid : Z) : list Active.t :=
  filter (fun a => Active.user_id a =? uid) (active db).

Definition signed_in (db : DB) (uid : Z) : bool :=
  existsb (fun a => Active.user_id a =? uid) (active db).

(** The data model's assumption: at most one open session for a user *)
Definition one_session_per_user (db : DB) : bool :=
  nodupb Z.eqb (map Active.user_id (active db)).

(** The open sessions of everybody but one user *)
Definition sessions_of_others (db : DB) (uid : Z) : list Active.t :=
  filter (fun a => negb (Active.user_id a =? uid)) (active db).

(** The database with its [active] and [stamps] tables replaced *)
Definition with_tables (db : DB) (act : list Active.t) (st : list Stamps.t) : DB :=
  mkDB (users db) (roles db) (subteams db) (events db) (event_types db) act st.

(** What an accepted [scan] gives back once it has written [db']: the
    user's readable name with the outcome [sign], or the failure to read the
    role of a user who has none *)
Definition outcome (db db' : DB) (u : User.t) (sign : str)
  : Res (option StampEvent.t) :=
  match role_of db u with
  | Some r =>
      Ret (Some (StampEvent.mk
                   ((if Role.mentor r then lit "*" else []) ++ User.name u)
                   sign)) db'
  | None => Raise AttributeError db'
  end.

(** ** A small database for the examples

    One role, one approved user and an enabled event from 10:00 to 12:00;
    times are microseconds since midnight. *)

Definition student : Role.t :=
  Role.mk 1 (lit "student") false false false false false.

Definition jane : User.t :=
  User.mk 1 (lit "Jane Doe") (mk_hash (lit "jane doe")) 1 None true true.

Definition t_10_00 : Z := 36000000000.
Definition t_10_05 : Z := 36300000000.
Definition t_10_20 : Z := 37200000000.
Definition t_12_00 : Z := 43200000000.

Definition window_event : Event.t :=
  Event.mk 1 (lit "Build night") [] (lit "build") (lit "Shop")
           t_10_00 t_12_00 None true.

Definition open_db : DB :=
  mkDB [jane] [student] [] [window_event] [] [] [].

Definition jane_session : Active.t := Active.mk 1 1 1 t_10_05.

Definition signed_in_db : DB :=
  mkDB [jane] [student] [] [window_event] [] [jane_session] [].

Definition outreach_event : Event.t :=
  Event.mk 2 (lit "Outreach") [] (lit "outreach") (lit "Library")
           t_10_00 t_12_00 None true.

(** Jane signed in at the build night; the outreach event runs at the same
    time. *)
Definition two_event_db : DB :=
  mkDB [jane] [student] [] [window_event; outreach_event] [] [jane_session] [].

(** A computation that leaves the tables as it found them *)
Definition read_only {A} (c : M A) : Prop :=
  forall db, state_of (c db) = db.

(** [event.type_] *)
Definition event_type_of (db : DB) (e : Event.t) : option EventType.t :=
  match Event.type_id e with
  | Some tid => find (fun t => EventType.id t =? tid) (event_types db)
  | None => None
  end.

Definition t_10_10 : Z := 36600000000.
Definition t_10_15 : Z := 36900000000.

Definition jane_stamp : Stamps.t := Stamps.mk 1 1 1 t_10_05 t_10_20.

(** Jane's quarter of an hour at the build night, stamped *)
Definition stamp_db : DB :=
  mkDB [jane] [student] [] [window_event] [] [] [jane_stamp].







(** ** Runs of scans

    One call of [scan] with the two clock readings it sees; a run is what a
    sequence of calls leaves in the tables. *)
Record ScanCall := mkScanCall {
  call_now : Z;
  call_db_now : Z;
  call_ev : option Event.t;
  call_name : str
}.

Fixpoint run_scans (calls : list ScanCall) (db : DB) : DB :=
  match calls with
  | [] => db
  | c :: rest =>
      run_scans rest
        (state_of (SqliteModel.scan (call_now c) (call_db_now c) (call_ev c)
                                    (call_name c) db))
  end.

(** ** The time of a user *)

(** [user.stamps] *)
Definition User_stamps (db : DB) (self : User.t) : list Stamps.t :=
  filter (fun s => Stamps.user_id s =? User.id self) (stamps db).

(** [sum((s.elapsed for s in ...), start=timedelta())] *)
Definition sum_elapsed (l : list Stamps.t) : Z :=
  fold_left (fun acc s => acc + Stamps.elapsed s) l 0.

(** [User.total_time] *)
Definition User_total_time (db : DB) (self : User.t) : Z :=
  sum_elapsed (User_stamps db self).

Fixpoint filterM {A} (f : A -> M bool) (l : list A) : M (list A) :=
  match l with
  | [] => ret []
  | x :: l' =>
      b <- f x ;;
      ys <- filterM f l' ;;
      ret (if b then x :: ys else ys)
  end.

(** [s.event.type_ == type_]: the same row of [event_types] *)
Definition same_type (a : option EventType.t) (type_ : EventType.t) : bool :=
  match a with
  | Some t => EventType.id t =? EventType.id type_
  | None => false
  end.

(** [User.stamps_for]; reading the type of a missing event raises. *)
Definition User_stamps_for (self : User.t) (type_ : EventType.t)
  : M (list Stamps.t) :=
  rows <- gets (fun db => User_stamps db self) ;;
  filterM
    (fun s =>
       ev <- gets (fun db => event_by_id db (Stamps.event_id s)) ;;
       ev <- related ev ;;
       ty <- gets (fun db => event_type_of db ev) ;;
       ret (same_type ty type_ && Event.enabled ev))
    rows.


(** The event a stamp refers to is in the table *)
Definition has_event (db : DB) (s : Stamps.t) : bool :=
  match event_by_id db (Stamps.event_id s) with
  | Some _ => true
  | None => false
  end.

(** The stamp is at an enabled event of the given type *)
Definition at_enabled_event_of_type (db : DB) (type_ : EventType.t)
  (s : Stamps.t) : bool :=
  match event_by_id db (Stamps.event_id s) with
  | Some e => same_type (event_type_of db e) type_ && Event.enabled e
  | None => false
  end.

(** ** Well-formed names *)

(** The string starts with the word mentor, in any letter case *)
Definition starts_with_mentor (s : str) : bool :=
  str_eqb (lower (firstn 6 s)) (lit "mentor").

(** The string is not empty and does not start with a space *)
Definition no_leading_space (s : str) : bool :=
  match s with
  | x :: _ => negb (is_char " " x)
  | [] => false
  end.

(** The continuation that ends a match *)
Definition final : cont := fun _ caps => Some caps.

(** The input stops, or goes on with a character outside the class *)
Definition stops (p : ascii -> bool) (v : str) : Prop :=
  match v with
  | [] => True
  | y :: _ => p y = false
  end.

(** The two halves of [NAME_RE]: the optional prefix, and the rest *)
Definition MENTOR : regex :=
  Opt (Group "mentor"
         (Seq (Lit (lit "mentor") ignorecase_lit)
              (Star (Chr (ignorecase space_or_hyphen))))).

Definition NAME_TAIL : regex :=
  Seq (Group "last" (Plus (Chr (ignorecase name_class))))
   (Seq (Chr (ignorecase_lit ","%char))
   (Seq (Star (Chr (ignorecase is_space)))
   (Seq (Group "first" (Plus (Chr (ignorecase name_class))))
        Eos))).

(** The newline character *)
Definition nl : ascii := chr 10.

(** ** Reading an encoding back

    The inverses of the two encoders on one unit, used to show that the
    encoders lose nothing. *)

Local Open Scope N_scope.

(** The first character of a UTF-8 byte string, and the bytes after it *)
Definition utf8_first (bs : list ascii) : option (ascii * list ascii) :=
  match bs with
  | [] => None
  | b :: r =>
      if N.ltb (ord b) 128 then Some (b, r)
      else
        match r with
        | b2 :: r' => Some (chr ((ord b - 192) * 64 + (ord b2 - 128)), r')
        | [] => None
        end
  end.

Fixpoint index_in (c : ascii) (l : list ascii) : N :=
  match l with
  | [] => 0
  | x :: l' => if Ascii.eqb x c then 0 else 1 + index_in c l'
  end.

(** The value of a base64 digit *)
Definition b64_index (c : ascii) : N := index_in c b64_table.

Local Close Scope N_scope.

(** The zero byte *)
Definition zero : ascii := chr 0.

(** ** Registering and finding users *)

(** [User.make]: the row it builds, with the hash of the name as code, as
    the table holds it once added: [id] is the key the database gives it and
    [active] has its default.  The password hash is a column that no query
    of the model reads. *)
Definition User_make (id : Z) (name : str) (role : Role.t)
  (subteam : option Subteam.t) (approved : bool) : User.t :=
  User.mk id name (mk_hash name) (Role.id role)
          (match subteam with Some s => Some (Subteam.id s) | None => None end)
          approved true.

(** [User.get_canonical] *)
Definition User_get_canonical (name : str) : M (option User.t) :=
  let code := mk_hash name in
  bind (gets (User_filter_by_code code)) one_or_none.

(** ** Badges *)

Module BadgeAward.
Record t := mk {
  id : Z;
  user_id : Z;
  badge_id : Z;
  received : Z
}.
End BadgeAward.

(** What the badge methods of a user do to the [badge_awards] table, the
    only table they read or write. *)

Inductive badge_exn := BadgeMultipleResultsFound | UnmappedInstanceError.

Inductive badge_result :=
| Committed (awards : list BadgeAward.t)
| BadgeRaise (e : badge_exn).

(** [User.badges] *)
Definition User_badges (awards : list BadgeAward.t) (self : User.t)
  : list BadgeAward.t :=
  filter (fun a => BadgeAward.user_id a =? User.id self) awards.

(** [User.has_badge] *)
Definition User_has_badge (awards : list BadgeAward.t) (self : User.t)
  (badge_id : Z) : bool :=
  existsb (fun b => badge_id =? b)
          (map BadgeAward.badge_id (User_badges awards self)).

(** [User.award_badge]; the new row gets its key and the database's clock
    at the commit. *)
Definition User_award_badge (db_now : Z) (self : User.t) (badge_id : Z)
  (awards : list BadgeAward.t) : list BadgeAward.t :=
  if negb (User_has_badge awards self badge_id) then
    awards
    ++ [BadgeAward.mk (next_id (map BadgeAward.id awards)) (User.id self)
                      badge_id db_now]
  else awards.

(** [User.remove_badge]; deleting the [None] of an empty query raises, as
    more than one row does in [one_or_none]. *)
Definition User_remove_badge (self : User.t) (badge_id : Z)
  (awards : list BadgeAward.t) : badge_result :=
  if User_has_badge awards self badge_id then
    match filter (fun a => (BadgeAward.badge_id a =? badge_id)
                           && (BadgeAward.user_id a =? User.id self))
                 awards with
    | [] => BadgeRaise UnmappedInstanceError
    | [award] =>
        Committed
          (filter (fun x => negb (BadgeAward.id x =? BadgeAward.id award))
                  awards)
    | _ => BadgeRaise BadgeMultipleResultsFound
    end
  else Committed awards.

(** Keys of awards are unique, and a user holds a badge at most once *)
Definition pair_eqb (p q : Z * Z) : bool :=
  (fst p =? fst q) && (snd p =? snd q).

Definition award_pair (a : BadgeAward.t) : Z * Z :=
  (BadgeAward.user_id a, BadgeAward.badge_id a).

Definition awards_ok (awards : list BadgeAward.t) : bool :=
  nodupb Z.eqb (map BadgeAward.id awards)
  && nodupb pair_eqb (map award_pair awards).

(** ** Names beyond Latin-1

    The canonicaliser once more, over a wider alphabet: the code points
    below 256 and five beyond them, the four letters that the classes of
    [NAME_RE] accept under [re.IGNORECASE] besides the ASCII ones, and the
    combining dot that lower-casing one of the four puts after its [i].  On
    the code points below 256 the definitions are the ones above. *)

Module Wide.

Local Open Scope N_scope.

Inductive char : Type :=
| Latin (c : ascii)
| CapitalIDot
| DotlessI
| LongS
| CombiningDot
| KelvinSign.

(** U+0130, U+0131, U+017F, U+0307 and U+212A *)
Definition code_point (c : char) : N :=
  match c with
  | Latin a => ord a
  | CapitalIDot => 304
  | DotlessI => 305
  | LongS => 383
  | CombiningDot => 775
  | KelvinSign => 8490
  end.

Definition text := list char.

Definition of_str (s : str) : text := map Latin s.

(** The lower case of one code point where it is one code point again, as
    the matcher takes it under [re.IGNORECASE] *)
Definition simple_lower (c : char) : char :=
  match c with
  | Latin a => Latin (lower_char a)
  | CapitalIDot => Latin "i"
  | KelvinSign => Latin "k"
  | _ => c
  end.

(** A literal character under [re.IGNORECASE]: the characters with the
    lower case of the literal *)
Definition ignorecase_lit (l : ascii) (c : char) : bool :=
  match simple_lower c with
  | Latin a => Ascii.eqb a (lower_char l)
  | _ => false
  end.

(** [c.lower()]: the capital I with a dot becomes an [i] and a combining
    dot. *)
Definition lower_char (c : char) : text :=
  match c with
  | CapitalIDot => [Latin "i"; CombiningDot]
  | _ => [simple_lower c]
  end.

(** [s.lower()] *)
Definition lower (s : text) : text := flat_map lower_char s.

(** [s.encode("utf-8")]: one byte below U+0080, two below U+0800, three
    from there on *)
Definition utf8_char (c : char) : list ascii :=
  let n := code_point c in
  if N.ltb n 128 then [chr n]
  else if N.ltb n 2048 then [chr (192 + n / 64); chr (128 + n mod 64)]
  else [chr (224 + n / 4096); chr (128 + (n / 64) mod 64);
        chr (128 + n mod 64)].

Definition encode_utf8 (s : text) : list ascii := flat_map utf8_char s.

Definition mk_hash (name : text) : text :=
  of_str (b64encode (encode_utf8 (lower name))).

(** The matcher, as above *)
Inductive regex : Type :=
| Chr (p : char -> bool)
| Seq (r1 r2 : regex)
| Alt (r1 r2 : regex)
| Opt (r : regex)
| Star (r : regex)
| Group (name : string) (r : regex)
| Bos
| Eos.

Definition Plus (r : regex) : regex := Seq r (Star r).

Fixpoint Lit (s : str) (f : ascii -> char -> bool) : regex :=
  match s with
  | [] => Opt (Chr (fun _ => false))
  | [c] => Chr (f c)
  | c :: s' => Seq (Chr (f c)) (Lit s' f)
  end.

Definition captures := list (string * text).

Definition cont := text -> captures -> option captures.

Fixpoint star_loop (m1 : text -> captures -> cont -> option captures)
  (k : cont) (n : nat) (s : text) (caps : captures) : option captures :=
  match n with
  | O => k s caps
  | S n' =>
      match m1 s caps
               (fun s1 c1 =>
                  if Nat.ltb (List.length s1) (List.length s)
                  then star_loop m1 k n' s1 c1
                  else None) with
      | Some m => Some m
      | None => k s caps
      end
  end.

(** A class or test of the Latin-1 characters, which holds of no other *)
Definition latin (p : ascii -> bool) (c : char) : bool :=
  match c with
  | Latin a => p a
  | _ => false
  end.

Fixpoint mt (r : regex) (whole s : text) (caps : captures) (k : cont)
  {struct r} : option captures :=
  match r with
  | Chr p =>
      match s with
      | c :: s' => if p c then k s' caps else None
      | [] => None
      end
  | Seq r1 r2 => mt r1 whole s caps (fun s1 c1 => mt r2 whole s1 c1 k)
  | Alt r1 r2 =>
      match mt r1 whole s caps k with
      | Some m => Some m
      | None => mt r2 whole s caps k
      end
  | Opt r1 =>
      match mt r1 whole s caps k with
      | Some m => Some m
      | None => k s caps
      end
  | Star r1 => star_loop (mt r1 whole) k (List.length s) s caps
  | Group name r1 =>
      mt r1 whole s caps
         (fun s1 c1 =>
            k s1 ((name, firstn (List.length s - List.length s1)%nat s) :: c1))
  | Bos => if Nat.eqb (List.length s) (List.length whole) then k s caps else None
  | Eos =>
      match s with
      | [] => k s caps
      | [c] => if latin is_newline c then k s caps else None
      | _ => None
      end
  end.

Definition re_match (r : regex) (s : text) : option captures :=
  mt r s s [] (fun _ caps => Some caps).

Fixpoint group (name : string) (m : captures) : text :=
  match m with
  | [] => []
  | (n, v) :: m' => if String.eqb n name then v else group name m'
  end.

(** What [[a-zA-Z ']] is compiled to under [re.IGNORECASE]: its characters
    in lower case, and with [i] and [s] their other lower-case forms, the
    dotless i and the long s *)
Definition name_set (c : char) : bool :=
  match c with
  | Latin a => is_lower_az a || is_char " " a || is_char "'" a
  | DotlessI | LongS => true
  | _ => false
  end.

(** [[a-zA-Z ']] under [re.IGNORECASE]: the character is put in lower case
    and looked up *)
Definition name_class (c : char) : bool := name_set (simple_lower c).

Definition NAME_RE : regex :=
  Seq Bos
   (Seq (Opt (Group "mentor"
                (Seq (Lit (lit "mentor") ignorecase_lit)
                     (Star (Chr (latin space_or_hyphen))))))
   (Seq (Group "last" (Plus (Chr name_class)))
   (Seq (Chr (ignorecase_lit ","%char))
   (Seq (Star (Chr (latin is_space)))
   (Seq (Group "first" (Plus (Chr name_class)))
        Eos))))).

Definition b64_times (n : nat) : regex :=
  Nat.iter (n - 1)%nat (fun r => Seq (Chr (latin b64_class)) r)
           (Chr (latin b64_class)).

Definition HASH_RE : regex :=
  Seq Bos
   (Seq (Star (b64_times 4))
   (Seq (Opt (Alt (Seq (b64_times 3) (Chr (latin (is_char "="))))
                  (Seq (b64_times 2)
                       (Seq (Chr (latin (is_char "=")))
                            (Chr (latin (is_char "=")))))))
        Eos)).

Definition canonical_name (name : text) : option text :=
  match re_match NAME_RE name with
  | Some m =>
      Some (mk_hash (group "first" m ++ of_str (lit " ") ++ group "last" m))
  | None =>
      match re_match HASH_RE name with
      | Some _ => Some name
      | None => None
      end
  end.

End Wide.

(** The name Ince, Ali, written with the dotted capital I of Turkish *)
Definition ince_ali : Wide.text :=
  Wide.CapitalIDot :: Wide.of_str (lit "nce, Ali").

(** The captures of a match on Latin-1 text, in the wider alphabet *)
Definition caps_of (c : captures) : Wide.captures :=
  map (fun x => (fst x, Wide.of_str (snd x))) c.

(** A pattern and its counterpart on the wider alphabet test the Latin-1
    characters alike *)
Fixpoint agree (r : regex) (R : Wide.regex) : Prop :=
  match r, R with
  | Chr p, Wide.Chr q => forall a, q (Wide.Latin a) = p a
  | Seq r1 r2, Wide.Seq R1 R2 => agree r1 R1 /\ agree r2 R2
  | Alt r1 r2, Wide.Alt R1 R2 => agree r1 R1 /\ agree r2 R2
  | Opt r1, Wide.Opt R1 => agree r1 R1
  | Star r1, Wide.Star R1 => agree r1 R1
  | Group n r1, Wide.Group N R1 => n = N /\ agree r1 R1
  | Bos, Wide.Bos => True
  | Eos, Wide.Eos => True
  | _, _ => False
  end.

(** Two continuations that go on alike after Latin-1 text *)
Definition cont_agree (k : cont) (K : Wide.cont) : Prop :=
  forall s c, K (Wide.of_str s) (caps_of c) = option_map caps_of (k s c).


(** * Properties *)

(** ** Checks on concrete inputs *)

Example canonical_name_smith :
  canonical_name (lit "Smith, John") = Some (lit "am9obiBzbWl0aA==").
Proof. vm_compute. reflexivity. Qed.

Example canonical_name_mentor :
  canonical_name (lit "MENTOR - O'Neil,  Mary ann") =
  canonical_name (lit "o'neil,Mary Ann").
Proof. vm_compute. reflexivity. Qed.

Example canonical_name_word :
  canonical_name (lit "John") = Some (lit "John").
Proof. vm_compute. reflexivity. Qed.

Example canonical_name_rejects :
  canonical_name (lit "John Smith") = None.
Proof. vm_compute. reflexivity. Qed.

Example str_timedelta_quarter :
  str_timedelta (15 * 60 * 1000000) = lit "0:15:00".
Proof. vm_compute. reflexivity. Qed.

Example str_timedelta_days :
  str_timedelta (2 * 86400000000 + 3661 * 1000000 + 5) =
  lit "2 days, 1:01:01.000005".
Proof. vm_compute. reflexivity. Qed.


(** ** The event window *)

(** C5, as stated, fails at the opening instant: an enabled event whose
    window opens at 10:00 is not active at 10:00, although that instant lies in
    the half-open window from 10:00 to 12:00. *)
Lemma is_active_half_open_counterexample :
  ~ (Event.is_active window_event t_10_00 = true <->
     Event.enabled window_event = true
     /\ Event.start window_event <= t_10_00 < Event.end_ window_event).
Proof.
  intros [_ H].
  assert (Hf : Event.is_active window_event t_10_00 = true).
  { apply H. split; [reflexivity | vm_compute; split; congruence]. }
  vm_compute in Hf. discriminate.
Qed.

(** C5 (amended): an event is active exactly when it is enabled and the
    current time lies strictly between its start and its end; it is active
    neither at the instant it starts nor at the instant it ends. *)
Theorem is_active_open_window (e : Event.t) (now : Z) :
  (Event.is_active e now = true <->
   Event.enabled e = true /\ Event.start e < now /\ now < Event.end_ e)
  /\ Event.is_active e (Event.start e) = false
  /\ Event.is_active e (Event.end_ e) = false.
Proof.
  unfold Event.is_active. split; [split | split].
  - intros H. apply andb_true_iff in H. destruct H as [H H2].
    apply andb_true_iff in H. destruct H as [H0 H1].
    apply eqb_prop in H0. repeat split; [exact H0 | lia | lia].
  - intros (He & H1 & H2). rewrite He. simpl.
    apply andb_true_iff. split; lia.
  - rewrite Z.ltb_irrefl, andb_false_r. reflexivity.
  - rewrite Z.ltb_irrefl, andb_false_r. reflexivity.
Qed.

(** ** Canonical names do not depend on letter case *)

Ltac each_char c := destruct c as [[] [] [] [] [] [] [] []].

Lemma lower_char_idem (c : ascii) : lower_char (lower_char c) = lower_char c.
Proof. each_char c; reflexivity. Qed.

Lemma upper_lower_char (c : ascii) :
  upper_char (lower_char c) = upper_char c.
Proof. each_char c; reflexivity. Qed.

Lemma case_fixed (c : ascii) : lower_char c = c \/ upper_char c = c.
Proof. each_char c; (left; reflexivity) || (right; reflexivity). Qed.

Lemma newline_blind (c : ascii) : is_newline c = is_newline (lower_char c).
Proof. each_char c; reflexivity. Qed.

Lemma ignorecase_blind (p : ascii -> bool) (c : ascii) :
  ignorecase p c = ignorecase p (lower_char c).
Proof.
  unfold ignorecase. rewrite lower_char_idem, upper_lower_char.
  destruct (case_fixed c) as [H | H]; rewrite H;
    destruct (p c), (p (lower_char c)), (p (upper_char c)); reflexivity.
Qed.

Lemma ignorecase_lit_blind (l c : ascii) :
  ignorecase_lit l c = ignorecase_lit l (lower_char c).
Proof. unfold ignorecase_lit. now rewrite lower_char_idem. Qed.

Lemma NAME_RE_case_blind : case_blind NAME_RE.
Proof.
  simpl. repeat split;
    intros c; apply ignorecase_blind || apply ignorecase_lit_blind.
Qed.

Lemma lower_length (s s' : str) :
  lower s = lower s' -> List.length s = List.length s'.
Proof.
  intros H. apply (f_equal (@List.length _)) in H.
  unfold lower in H. now rewrite !length_map in H.
Qed.

Lemma lower_firstn (n : nat) (s s' : str) :
  lower s = lower s' -> lower (firstn n s) = lower (firstn n s').
Proof.
  unfold lower. intros H. now rewrite <- !firstn_map, H.
Qed.

Lemma blind_agree (p : ascii -> bool) (a b : ascii) :
  (forall c, p c = p (lower_char c)) ->
  lower_char a = lower_char b -> p a = p b.
Proof. intros Hp H. now rewrite (Hp a), (Hp b), H. Qed.

Lemma res_rel_case (a b : option captures) (x y : option captures) :
  res_rel a b -> res_rel x y ->
  res_rel (match a with Some m => Some m | None => x end)
          (match b with Some m => Some m | None => y end).
Proof. destruct a, b; simpl; tauto. Qed.

Lemma star_loop_case (m1 m1' : str -> captures -> cont -> option captures) :
  (forall s s' c c' k k',
      lower s = lower s' -> caps_rel c c' -> cont_rel k k' ->
      res_rel (m1 s c k) (m1' s' c' k')) ->
  forall n k k' s s' c c',
    cont_rel k k' -> lower s = lower s' -> caps_rel c c' ->
    res_rel (star_loop m1 k n s c) (star_loop m1' k' n s' c').
Proof.
  intros Hm. induction n as [| n IH]; intros k k' s s' c c' Hk Hs Hc; simpl.
  - now apply Hk.
  - apply res_rel_case; [| now apply Hk].
    apply Hm; trivial.
    intros s1 s1' c1 c1' Hs1 Hc1.
    rewrite (lower_length _ _ Hs), (lower_length _ _ Hs1).
    destruct (Nat.ltb _ _); simpl; [now apply IH | trivial].
Qed.

Lemma mt_case (r : regex) :
  case_blind r ->
  forall w w' s s' c c' k k',
    List.length w = List.length w' ->
    lower s = lower s' -> caps_rel c c' -> cont_rel k k' ->
    res_rel (mt r w s c k) (mt r w' s' c' k').
Proof.
  induction r as [p | r1 IH1 r2 IH2 | r1 IH1 r2 IH2 | r1 IH1 | r1 IH1
                 | name r1 IH1 | | ];
    simpl; intros Hb w w' s s' c c' k k' Hw Hs Hc Hk.
  - destruct s as [| a s], s' as [| b s']; simpl in Hs; try discriminate;
      simpl; trivial.
    injection Hs as Hab Hs. rewrite (blind_agree p a b Hb Hab).
    destruct (p b); simpl; [now apply Hk | trivial].
  - destruct Hb as [Hb1 Hb2]. apply IH1; trivial.
    intros s1 s1' c1 c1' Hs1 Hc1. now apply IH2.
  - destruct Hb as [Hb1 Hb2].
    apply res_rel_case; [now apply IH1 | now apply IH2].
  - apply res_rel_case; [now apply IH1 | now apply Hk].
  - rewrite (lower_length _ _ Hs). apply star_loop_case; trivial.
    intros s0 s0' c0 c0' k0 k0' Hs0 Hc0 Hk0. now apply IH1.
  - apply IH1; trivial.
    intros s1 s1' c1 c1' Hs1 Hc1. apply Hk; trivial.
    constructor; [| exact Hc1]. simpl. split; [reflexivity |].
    rewrite (lower_length _ _ Hs), (lower_length _ _ Hs1).
    now apply lower_firstn.
  - rewrite (lower_length _ _ Hs), Hw.
    destruct (Nat.eqb _ _); simpl; [now apply Hk | trivial].
  - destruct s as [| a s], s' as [| b s']; simpl in Hs; try discriminate.
    + now apply Hk.
    + injection Hs as Hab Hs.
      destruct s as [| a2 s], s' as [| b2 s']; simpl in Hs; try discriminate;
        simpl; trivial.
      rewrite (newline_blind a), (newline_blind b), Hab.
      destruct (is_newline _); simpl; [| trivial].
      apply Hk; trivial. simpl. now rewrite Hab.
Qed.

Lemma group_case (name : string) (m m' : captures) :
  caps_rel m m' -> lower (group name m) = lower (group name m').
Proof.
  induction 1 as [| [n v] [n' v'] m m' [Hn Hv] _ IH]; simpl; trivial.
  simpl in Hn, Hv. subst n'. destruct (String.eqb n name); trivial.
Qed.

Lemma mk_hash_case (a b : str) : lower a = lower b -> mk_hash a = mk_hash b.
Proof. unfold mk_hash. now intros ->. Qed.

Lemma re_match_NAME_RE_case (s s' : str) :
  same_modulo_case s s' ->
  res_rel (re_match NAME_RE s) (re_match NAME_RE s').
Proof.
  intros H. unfold re_match. apply mt_case; trivial.
  - apply NAME_RE_case_blind.
  - now apply lower_length.
  - constructor.
  - intros s1 s1' c1 c1' _ Hc. exact Hc.
Qed.

(** ** The wider alphabet agrees on Latin-1 *)

Lemma of_str_length (s : str) : List.length (Wide.of_str s) = List.length s.
Proof. apply length_map. Qed.

Lemma of_str_firstn (n : nat) (s : str) :
  firstn n (Wide.of_str s) = Wide.of_str (firstn n s).
Proof. unfold Wide.of_str. now rewrite firstn_map. Qed.

Lemma star_loop_agree (m1 : str -> captures -> cont -> option captures)
  (M1 : Wide.text -> Wide.captures -> Wide.cont -> option Wide.captures) :
  (forall s c k K, cont_agree k K ->
     M1 (Wide.of_str s) (caps_of c) K = option_map caps_of (m1 s c k)) ->
  forall n k K s c, cont_agree k K ->
    Wide.star_loop M1 K n (Wide.of_str s) (caps_of c)
    = option_map caps_of (star_loop m1 k n s c).
Proof.
  intros Hm. induction n as [| n IH]; intros k K s c Hk; cbn [Wide.star_loop star_loop].
  - apply Hk.
  - rewrite (Hm s c (fun s1 c1 =>
                       if Nat.ltb (List.length s1) (List.length s)
                       then star_loop m1 k n s1 c1 else None)).
    + destruct (m1 s c _); [reflexivity | apply Hk].
    + intros s1 c1. rewrite !of_str_length.
      destruct (Nat.ltb _ _); [now apply IH | reflexivity].
Qed.

Lemma mt_agree (r : regex) :
  forall R, agree r R ->
  forall w s c k K, cont_agree k K ->
    Wide.mt R (Wide.of_str w) (Wide.of_str s) (caps_of c) K
    = option_map caps_of (mt r w s c k).
Proof.
  induction r as [p | r1 IH1 r2 IH2 | r1 IH1 r2 IH2 | r1 IH1 | r1 IH1
                 | name r1 IH1 | | ];
    intros [q | R1 R2 | R1 R2 | R1 | R1 | N R1 | | ] Ha; try contradiction;
    intros w s c k K Hk; cbn [agree] in Ha; cbn [Wide.mt mt].
  - destruct s as [| a s]; [reflexivity |]. cbn [Wide.of_str map].
    rewrite Ha. destruct (p a); [apply Hk | reflexivity].
  - destruct Ha as [Ha1 Ha2]. apply IH1; trivial.
    intros s1 c1. now apply IH2.
  - destruct Ha as [Ha1 Ha2]. rewrite (IH1 _ Ha1 w s c k K Hk).
    destruct (mt r1 w s c k); [reflexivity | now apply IH2].
  - rewrite (IH1 _ Ha w s c k K Hk).
    destruct (mt r1 w s c k); [reflexivity | apply Hk].
  - rewrite of_str_length. apply star_loop_agree; trivial.
    intros s0 c0 k0 K0 Hk0. now apply IH1.
  - destruct Ha as [<- Ha]. apply IH1; trivial.
    intros s1 c1. rewrite !of_str_length, of_str_firstn.
    apply (Hk s1 ((name, firstn (List.length s - List.length s1) s) :: c1)).
  - rewrite !of_str_length. destruct (Nat.eqb _ _); [apply Hk | reflexivity].
  - destruct s as [| a [| b s]]; cbn [Wide.of_str map Wide.latin].
    + apply (Hk []).
    + destruct (is_newline a); [apply (Hk [a]) | reflexivity].
    + reflexivity.
Qed.

Lemma re_match_agree (r : regex) (R : Wide.regex) (s : str) :
  agree r R ->
  Wide.re_match R (Wide.of_str s) = option_map caps_of (re_match r s).
Proof.
  intros Ha. unfold Wide.re_match, re_match.
  apply (@mt_agree r R Ha s s []). intros s1 c1. reflexivity.
Qed.

Lemma group_agree (name : string) (m : captures) :
  Wide.group name (caps_of m) = Wide.of_str (group name m).
Proof.
  induction m as [| [n v] m IH]; [reflexivity |].
  cbn [caps_of map Wide.group group fst snd].
  destruct (String.eqb n name); [reflexivity | exact IH].
Qed.

Lemma lower_agree (s : str) : Wide.lower (Wide.of_str s) = Wide.of_str (lower s).
Proof.
  induction s as [| a s IH]; [reflexivity |].
  cbn [Wide.of_str map Wide.lower flat_map lower Wide.lower_char Wide.simple_lower app].
  f_equal. exact IH.
Qed.

Lemma utf8_char_agree (a : ascii) : Wide.utf8_char (Wide.Latin a) = utf8_char a.
Proof. each_char a; reflexivity. Qed.

Lemma encode_utf8_agree (s : str) :
  Wide.encode_utf8 (Wide.of_str s) = encode_utf8 s.
Proof.
  induction s as [| a s IH]; [reflexivity |].
  cbn [Wide.of_str map Wide.encode_utf8 flat_map encode_utf8].
  rewrite utf8_char_agree. f_equal. exact IH.
Qed.

Lemma mk_hash_agree (s : str) :
  Wide.mk_hash (Wide.of_str s) = Wide.of_str (mk_hash s).
Proof.
  unfold Wide.mk_hash, mk_hash. now rewrite lower_agree, encode_utf8_agree.
Qed.

Lemma NAME_RE_agree : agree NAME_RE Wide.NAME_RE.
Proof.
  cbn. repeat split; intros a; each_char a; reflexivity.
Qed.

Lemma HASH_RE_agree : agree HASH_RE Wide.HASH_RE.
Proof.
  cbn. repeat split.
Qed.

Lemma canonical_name_agree (s : str) :
  Wide.canonical_name (Wide.of_str s)
  = option_map Wide.of_str (canonical_name s).
Proof.
  unfold Wide.canonical_name, canonical_name.
  rewrite (@re_match_agree _ _ s NAME_RE_agree), (@re_match_agree _ _ s HASH_RE_agree).
  destruct (re_match NAME_RE s) as [m |]; cbn [option_map].
  - rewrite !group_agree. f_equal. rewrite <- mk_hash_agree. f_equal.
    unfold Wide.of_str. now rewrite !map_app.
  - destruct (re_match HASH_RE s); reflexivity.
Qed.

(** X24: on names written in code points below 256, canonicalisation is
    blind to letter case and gives a key: when a string matches the name
    pattern, it gets the hash of the matched first name, a space and the
    matched last name, and every string equal to it after lower-casing gets
    the same key.  The wider alphabet gives these strings the same keys. *)
Theorem canonical_name_case_insensitive (s s' : str) :
  same_modulo_case s s' ->
  re_match NAME_RE s <> None ->
  exists m key,
    re_match NAME_RE s = Some m
    /\ key = mk_hash (group "first" m ++ lit " " ++ group "last" m)
    /\ canonical_name s = Some key
    /\ canonical_name s' = Some key
    /\ Wide.canonical_name (Wide.of_str s) = Some (Wide.of_str key)
    /\ Wide.canonical_name (Wide.of_str s') = Some (Wide.of_str key).
Proof.
  intros Hs Hm.
  pose proof (re_match_NAME_RE_case Hs) as Hr.
  destruct (re_match NAME_RE s) as [m |] eqn:E; [| congruence].
  destruct (re_match NAME_RE s') as [m' |] eqn:E'; [| contradiction].
  simpl in Hr.
  assert (Hkey : mk_hash (group "first" m' ++ lit " " ++ group "last" m')
                 = mk_hash (group "first" m ++ lit " " ++ group "last" m)).
  { apply mk_hash_case. unfold lower. rewrite !map_app.
    fold (lower (group "first" m)). fold (lower (group "first" m')).
    fold (lower (group "last" m)). fold (lower (group "last" m')).
    now rewrite (group_case "first" Hr), (group_case "last" Hr). }
  assert (H1 : canonical_name s
               = Some (mk_hash (group "first" m ++ lit " " ++ group "last" m)))
    by (unfold canonical_name; now rewrite E).
  assert (H2 : canonical_name s'
               = Some (mk_hash (group "first" m ++ lit " " ++ group "last" m)))
    by (unfold canonical_name; now rewrite E', Hkey).
  exists m. eexists. split; [reflexivity |]. split; [reflexivity |].
  split; [exact H1 |]. split; [exact H2 |].
  rewrite !canonical_name_agree, H1, H2. split; reflexivity.
Qed.

Lemma canonical_name_case_insensitive_witness :
  same_modulo_case (lit "Smith, John") (lit "smith, john")
  /\ re_match NAME_RE (lit "Smith, John") <> None
  /\ canonical_name (lit "Smith, John") = Some (lit "am9obiBzbWl0aA==")
  /\ canonical_name (lit "smith, john") = Some (lit "am9obiBzbWl0aA==").
Proof.
  assert (H1 : same_modulo_case (lit "Smith, John") (lit "smith, john"))
    by reflexivity.
  assert (H2 : re_match NAME_RE (lit "Smith, John") <> None)
    by (vm_compute; discriminate).
  split; [exact H1 | split; [exact H2 |]].
  destruct (canonical_name_case_insensitive H1 H2)
    as (m & key & Hm & Hkey & Ha & Hb & _).
  assert (K : key = lit "am9obiBzbWl0aA==").
  { assert (Hm' : re_match NAME_RE (lit "Smith, John")
                  = Some [("first"%string, lit "John");
                          ("last"%string, lit "Smith")])
      by (vm_compute; reflexivity).
    rewrite Hm' in Hm. injection Hm as <-. rewrite Hkey.
    vm_compute. reflexivity. }
  rewrite K in Ha, Hb. split; assumption.
Defined.

(** C6, on a failing input: the name Ince, Ali written with the dotted
    capital I, and the same name in lower case, which is what [lower] makes
    of it: an [i], a combining dot, and the rest.  The two differ in letter
    case only.  The first matches [NAME_RE], whose letter class takes the
    dotted capital I under [re.IGNORECASE], and gets a key; the second does
    not, the combining dot being in no class of either pattern, and gets
    none. *)
Theorem canonical_name_dotted_capital :
  Wide.lower ince_ali
  = Wide.Latin "i" :: Wide.CombiningDot :: Wide.of_str (lit "nce, ali")
  /\ Wide.lower (Wide.lower ince_ali) = Wide.lower ince_ali
  /\ Wide.re_match Wide.NAME_RE ince_ali
     = Some [("first"%string, Wide.of_str (lit "Ali"));
             ("last"%string, Wide.CapitalIDot :: Wide.of_str (lit "nce"))]
  /\ Wide.canonical_name ince_ali
     = Some (Wide.of_str (lit "YWxpIGnMh25jZQ=="))
  /\ Wide.re_match Wide.NAME_RE (Wide.lower ince_ali) = None
  /\ Wide.canonical_name (Wide.lower ince_ali) = None.
Proof. repeat split; vm_compute; reflexivity. Qed.

(** ** Keys pass through [canonical_name] *)

Lemma mt_Seq (r1 r2 : regex) (w s : str) (c : captures) (k : cont) :
  mt (Seq r1 r2) w s c k = mt r1 w s c (fun s1 c1 => mt r2 w s1 c1 k).
Proof. reflexivity. Qed.

Lemma star_loop_S (m1 : str -> captures -> cont -> option captures)
  (k : cont) (n : nat) (s : str) (caps : captures) :
  star_loop m1 k (S n) s caps =
  match m1 s caps
           (fun s1 c1 =>
              if Nat.ltb (List.length s1) (List.length s)
              then star_loop m1 k n s1 c1
              else None) with
  | Some m => Some m
  | None => k s caps
  end.
Proof. reflexivity. Qed.

Lemma quad_match (w s : str) (caps : captures) (k : cont) :
  mt (b64_times 4) w s caps k =
  match s with
  | a :: b :: c :: d :: rest =>
      if b64_class a && b64_class b && b64_class c && b64_class d
      then k rest caps else None
  | _ => None
  end.
Proof.
  destruct s as [| a [| b [| c [| d rest]]]]; simpl; trivial;
    repeat match goal with
           | |- context [b64_class ?x] => destruct (b64_class x)
           end; simpl; trivial.
Qed.

Lemma pad_not_digit (c : ascii) : is_char "=" c = true -> b64_class c = false.
Proof. intros H. apply Ascii.eqb_eq in H. subst c. reflexivity. Qed.

Lemma hash_tail_pad1 (w : str) (a b c d : ascii) (caps : captures) :
  b64_class a = true -> b64_class b = true -> b64_class c = true ->
  is_char "=" d = true ->
  hash_tail w [a; b; c; d] caps = Some caps.
Proof.
  intros Ha Hb Hc Hd. unfold hash_tail. simpl. rewrite Ha, Hb, Hc.
  simpl in *. rewrite Hd. reflexivity.
Qed.

Lemma hash_tail_pad2 (w : str) (a b c d : ascii) (caps : captures) :
  b64_class a = true -> b64_class b = true -> is_char "=" c = true ->
  is_char "=" d = true ->
  hash_tail w [a; b; c; d] caps = Some caps.
Proof.
  intros Ha Hb Hc Hd. unfold hash_tail. simpl.
  rewrite Ha, Hb, (pad_not_digit _ Hc). simpl in *. rewrite Hc, Hd.
  reflexivity.
Qed.

Lemma star_quads (w : str) :
  forall n s caps,
    b64_shape s = true -> (List.length s <= n)%nat ->
    star_loop (mt (b64_times 4) w) (hash_tail w) n s caps = Some caps.
Proof.
  induction n as [| n IH]; intros s caps Hs Hn.
  - destruct s; [reflexivity | simpl in Hn; lia].
  - rewrite star_loop_S, quad_match.
    destruct s as [| a [| b [| c [| d rest]]]]; try discriminate.
    + reflexivity.
    + simpl in Hs.
      destruct (b64_class a) eqn:Ha; [| discriminate].
      destruct (b64_class b) eqn:Hb; [| discriminate]. simpl in Hs.
      destruct (b64_class c) eqn:Hc; simpl in Hs.
      * destruct (b64_class d) eqn:Hd; simpl in Hs.
        -- simpl andb. cbv iota.
           replace (Nat.ltb (List.length rest)
                            (List.length (a :: b :: c :: d :: rest)))
             with true by (symmetry; apply Nat.ltb_lt; simpl; lia).
           rewrite IH; trivial.
           ++ assert (E : is_char "=" d = false).
              { destruct (is_char "=" d) eqn:E; trivial.
                rewrite (pad_not_digit _ E) in Hd. discriminate. }
              rewrite E, !andb_false_r in Hs. simpl in Hs.
              now rewrite orb_false_r in Hs.
           ++ simpl in Hn. lia.
        -- simpl andb. cbv iota.
           destruct rest; simpl in Hs; try discriminate.
           destruct (is_char "=" d) eqn:E.
           ++ now apply hash_tail_pad1.
           ++ simpl in Hs. rewrite andb_false_r in Hs. discriminate.
      * simpl andb. cbv iota.
        destruct rest; simpl in Hs; try discriminate.
        apply andb_true_iff in Hs. destruct Hs.
        now apply hash_tail_pad2.
Qed.

Lemma re_match_HASH_RE (s : str) :
  b64_shape s = true -> re_match HASH_RE s = Some [].
Proof.
  intros H. unfold re_match, HASH_RE.
  change (mt Bos s s []
             (fun s1 c1 =>
                star_loop (mt (b64_times 4) s) (hash_tail s)
                          (List.length s1) s1 c1) = Some []).
  simpl. rewrite Nat.eqb_refl. now apply star_quads.
Qed.

Lemma reaches_here (k : cont) s c m : k s c = Some m -> reaches k s m.
Proof. intros H. exists s, c. split; trivial. now exists []. Qed.

Lemma reaches_step (k k' : cont) s m :
  reaches k' s m ->
  (forall s1 c1, k' s1 c1 = Some m -> reaches k s1 m) ->
  reaches k s m.
Proof.
  intros (s1 & c1 & H1 & u & Hu) Hk.
  destruct (Hk _ _ H1) as (s2 & c2 & H2 & v & Hv).
  exists s2, c2. split; trivial. exists (u ++ v). subst. now rewrite app_assoc.
Qed.

Lemma star_loop_some m1 (k : cont) :
  (forall s c k' m, m1 s c k' = Some m -> reaches k' s m) ->
  forall n s c m, star_loop m1 k n s c = Some m -> reaches k s m.
Proof.
  intros Hm. induction n as [| n IH]; intros s c m H; simpl in H.
  - now apply reaches_here in H.
  - destruct (m1 s c _) as [m' |] eqn:E.
    + injection H as ->. apply Hm in E.
      apply (reaches_step E). intros s1 c1 H1.
      destruct (Nat.ltb _ _); [| discriminate]. now apply IH in H1.
    + now apply reaches_here in H.
Qed.

Lemma mt_some (r : regex) :
  forall w s c k m, mt r w s c k = Some m -> reaches k s m.
Proof.
  induction r as [p | r1 IH1 r2 IH2 | r1 IH1 r2 IH2 | r1 IH1 | r1 IH1
                 | name r1 IH1 | | ]; simpl; intros w s c k m H.
  - destruct s as [| a s]; [discriminate |].
    destruct (p a); [| discriminate].
    destruct (reaches_here _ _ _ H) as (s' & c' & H' & u & Hu).
    exists s', c'. split; trivial. exists (a :: u). now rewrite Hu.
  - apply IH1 in H. apply (reaches_step H). intros s1 c1 H1. now apply IH2 in H1.
  - destruct (mt r1 w s c k) as [m' |] eqn:E.
    + injection H as ->. now apply IH1 in E.
    + now apply IH2 in H.
  - destruct (mt r1 w s c k) as [m' |] eqn:E.
    + injection H as ->. now apply IH1 in E.
    + now apply reaches_here in H.
  - apply star_loop_some in H; trivial. intros s0 c0 k' m0 H0. now apply IH1 in H0.
  - apply IH1 in H. apply (reaches_step H). intros s1 c1 H1. now apply reaches_here in H1.
  - destruct (Nat.eqb _ _); [| discriminate]. now apply reaches_here in H.
  - destruct s as [| a [| b s]]; try discriminate.
    + now apply reaches_here in H.
    + destruct (is_newline a); [| discriminate]. now apply reaches_here in H.
Qed.

Lemma comma_only (c : ascii) : ignorecase_lit "," c = true -> c = ","%char.
Proof. destruct c as [[] [] [] [] [] [] [] []]; vm_compute; intros H; try discriminate; reflexivity. Qed.

Lemma NAME_RE_needs_comma (s : str) (m : captures) :
  re_match NAME_RE s = Some m -> In ","%char s.
Proof.
  unfold re_match, NAME_RE. intros H.
  rewrite mt_Seq in H. apply mt_some in H. destruct H as (s1 & c1 & H & u1 & ->).
  rewrite mt_Seq in H. apply mt_some in H. destruct H as (s2 & c2 & H & u2 & ->).
  rewrite mt_Seq in H. apply mt_some in H. destruct H as (s3 & c3 & H & u3 & ->).
  rewrite mt_Seq in H. simpl in H. destruct s3 as [| a s3]; [discriminate |].
  destruct (ignorecase_lit "," a) eqn:E; [| discriminate].
  apply comma_only in E. subst a.
  rewrite !in_app_iff. right. right. right. now left.
Qed.

Lemma b64_shape_chars : forall n s,
  (List.length s <= n)%nat -> b64_shape s = true ->
  forall c, In c s -> b64_class c = true \/ is_char "=" c = true.
Proof.
  induction n as [| n IH]; intros s Hn Hs c Hc.
  - destruct s; [contradiction | simpl in Hn; lia].
  - destruct s as [| a [| b [| x [| d rest]]]]; try discriminate; [contradiction |].
    simpl in Hs.
    apply andb_true_iff in Hs. destruct Hs as [Hab Hs].
    apply andb_true_iff in Hab. destruct Hab as [Ha Hb].
    apply orb_true_iff in Hs.
    destruct Hc as [<- | [<- | Hc]]; auto.
    destruct Hs as [Hs | Hs].
    + apply andb_true_iff in Hs. destruct Hs as [Hxd Hr].
      apply andb_true_iff in Hxd. destruct Hxd as [Hx Hd].
      destruct Hc as [<- | [<- | Hc]]; auto.
      apply (IH rest); trivial. simpl in Hn. lia.
    + apply andb_true_iff in Hs. destruct Hs as [Hr Hs].
      destruct rest; [| discriminate].
      apply orb_true_iff in Hs.
      destruct Hs as [Hs | Hs]; apply andb_true_iff in Hs; destruct Hs as [Hx Hd];
        destruct Hc as [<- | [<- | []]]; auto.
Qed.

Lemma b64_shape_no_name (s : str) :
  b64_shape s = true -> re_match NAME_RE s = None.
Proof.
  intros Hs. destruct (re_match NAME_RE s) as [m |] eqn:E; trivial.
  apply NAME_RE_needs_comma in E.
  destruct (@b64_shape_chars _ s (le_n _) Hs _ E) as [H | H]; vm_compute in H; discriminate.
Qed.

Lemma canonical_name_b64 s : b64_shape s = true -> canonical_name s = Some s.
Proof.
  intros H. unfold canonical_name.
  rewrite (@b64_shape_no_name s H). now rewrite (@re_match_HASH_RE s H).
Qed.

(** ** Unique keys *)

Lemma str_eqb_eq (a b : str) : str_eqb a b = true <-> a = b.
Proof.
  revert b. induction a as [| x a IH]; intros [| y b]; simpl; split;
    try discriminate; try reflexivity.
  - intros H. apply andb_true_iff in H. destruct H as [H1 H2].
    apply Ascii.eqb_eq in H1. apply IH in H2. now subst.
  - intros H. injection H as -> ->. rewrite Ascii.eqb_refl. simpl. now apply IH.
Qed.

Lemma str_eqb_refl (a : str) : str_eqb a a = true.
Proof. now apply str_eqb_eq. Qed.

Section Keys.
Variables (A K : Type) (key : A -> K) (eqb : K -> K -> bool).
Hypothesis eqb_eq : forall x y, eqb x y = true <-> x = y.

Lemma eqb_neq (x y : K) : eqb x y = false <-> x <> y.
Proof.
  destruct (eqb x y) eqn:E.
  - apply eqb_eq in E. split; [discriminate | contradiction].
  - split; trivial. intros _ H. apply eqb_eq in H. congruence.
Qed.

Lemma existsb_key_false (k : K) (l : list A) :
  existsb (eqb k) (map key l) = false ->
  filter (fun y => eqb (key y) k) l = [].
Proof.
  induction l as [| x l IH]; simpl; trivial.
  intros H. apply orb_false_iff in H. destruct H as [H1 H2].
  apply eqb_neq in H1.
  destruct (eqb (key x) k) eqn:E.
  - apply eqb_eq in E. congruence.
  - now apply IH.
Qed.

Lemma filter_key_cases (k : K) (l : list A) :
  nodupb eqb (map key l) = true ->
  filter (fun y => eqb (key y) k) l = []
  \/ exists x, In x l /\ key x = k
               /\ filter (fun y => eqb (key y) k) l = [x].
Proof.
  induction l as [| x l IH]; simpl; [now left |].
  intros H. apply andb_true_iff in H. destruct H as [H1 H2].
  apply negb_true_iff in H1.
  destruct (eqb (key x) k) eqn:E.
  - right. exists x. apply eqb_eq in E. subst k.
    rewrite (existsb_key_false _ _ H1). auto.
  - destruct (IH H2) as [H | (y & Hy & Hk & Hf)]; [now left |].
    right. exists y. auto.
Qed.

Lemma filter_key_in (x : A) (l : list A) :
  nodupb eqb (map key l) = true -> In x l ->
  filter (fun y => eqb (key y) (key x)) l = [x].
Proof.
  induction l as [| y l IH]; simpl; [contradiction |].
  intros H Hx. apply andb_true_iff in H. destruct H as [H1 H2].
  apply negb_true_iff in H1.
  destruct Hx as [-> | Hx].
  - assert (E : eqb (key x) (key x) = true) by now apply eqb_eq.
    rewrite E. now rewrite (existsb_key_false _ _ H1).
  - destruct (eqb (key y) (key x)) eqn:E.
    + apply eqb_eq in E. rewrite E in H1.
      apply existsb_key_false in H1.
      rewrite (IH H2 Hx) in H1. discriminate.
    + now apply IH.
Qed.

Lemma nodupb_key_inj (x y : A) (l : list A) :
  nodupb eqb (map key l) = true -> In x l -> In y l ->
  key x = key y -> x = y.
Proof.
  intros H Hx Hy Hk.
  pose proof (filter_key_in _ _ H Hx) as Fx.
  pose proof (filter_key_in _ _ H Hy) as Fy.
  rewrite Hk in Fx. rewrite Fx in Fy. now injection Fy.
Qed.

Lemma nodupb_filter (f : A -> bool) (l : list A) :
  nodupb eqb (map key l) = true ->
  nodupb eqb (map key (filter f l)) = true.
Proof.
  induction l as [| x l IH]; simpl; trivial.
  intros H. apply andb_true_iff in H. destruct H as [H1 H2].
  destruct (f x); simpl; [| now apply IH].
  rewrite (IH H2), andb_true_r. apply negb_true_iff.
  apply negb_true_iff in H1.
  destruct (existsb (eqb (key x)) (map key (filter f l))) eqn:E; trivial.
  apply existsb_exists in E. destruct E as (k & Hk & Ek).
  apply in_map_iff in Hk. destruct Hk as (y & <- & Hy).
  apply filter_In in Hy. destruct Hy as [Hy _].
  assert (existsb (eqb (key x)) (map key l) = true).
  { apply existsb_exists. exists (key y). split; trivial. now apply in_map. }
  congruence.
Qed.

Lemma nodupb_snoc (x : A) (l : list A) :
  nodupb eqb (map key l) = true ->
  existsb (eqb (key x)) (map key l) = false ->
  nodupb eqb (map key (l ++ [x])) = true.
Proof.
  induction l as [| y l IH]; simpl; trivial.
  intros H Hx. apply andb_true_iff in H. destruct H as [H1 H2].
  apply orb_false_iff in Hx. destruct Hx as [Hx1 Hx2].
  rewrite (IH H2 Hx2), andb_true_r. apply negb_true_iff.
  apply negb_true_iff in H1. rewrite map_app, existsb_app, H1. simpl.
  rewrite orb_false_r. apply eqb_neq. apply eqb_neq in Hx1. congruence.
Qed.
End Keys.

Lemma next_id_above (ids : list Z) : forall i, In i ids -> i < next_id ids.
Proof.
  unfold next_id. induction ids as [| j ids IH]; cbn [fold_right In];
    [contradiction |].
  intros i [-> | Hi]; [lia |]. specialize (IH i Hi). lia.
Qed.

Lemma next_id_fresh (ids : list Z) : existsb (Z.eqb (next_id ids)) ids = false.
Proof.
  destruct (existsb _ ids) eqn:E; trivial.
  apply existsb_exists in E. destruct E as (i & Hi & Ei).
  apply Z.eqb_eq in Ei. apply next_id_above in Hi. lia.
Qed.

(** ** The queries of [scan] *)

Lemma Z_eqb_eq (x y : Z) : (x =? y) = true <-> x = y.
Proof. apply Z.eqb_eq. Qed.

Lemma constraints_user_codes (db : DB) :
  constraints db = true -> nodupb str_eqb (map User.code (users db)) = true.
Proof.
  unfold constraints. intros H.
  repeat (apply andb_true_iff in H; destruct H as [H ?]). assumption.
Qed.

Lemma constraints_active_ids (db : DB) :
  constraints db = true -> nodupb Z.eqb (map Active.id (active db)) = true.
Proof.
  unfold constraints. intros H.
  repeat (apply andb_true_iff in H; destruct H as [H ?]). assumption.
Qed.

Lemma User_filter_by_code_in (db : DB) (u : User.t) :
  constraints db = true -> In u (users db) ->
  User_filter_by_code (User.code u) db = [u].
Proof.
  intros Hc Hu. unfold User_filter_by_code.
  apply (@filter_key_in _ _ User.code _ str_eqb_eq); trivial.
  now apply constraints_user_codes.
Qed.

Lemma User_filter_by_code_cases (db : DB) (code : str) :
  constraints db = true ->
  User_filter_by_code code db = []
  \/ exists u, In u (users db) /\ User.code u = code
               /\ User_filter_by_code code db = [u].
Proof.
  intros Hc. unfold User_filter_by_code.
  apply (@filter_key_cases _ _ User.code _ str_eqb_eq).
  now apply constraints_user_codes.
Qed.

Lemma filter_andb {A} (f g : A -> bool) (l : list A) :
  filter (fun x => f x && g x) l = filter f (filter g l).
Proof.
  induction l as [| x l IH]; simpl; trivial.
  destruct (g x); simpl; rewrite ?andb_true_r, ?andb_false_r.
  - destruct (f x); now rewrite IH.
  - exact IH.
Qed.

Lemma join_User_one {A} (user_id : A -> Z) (f : User.t -> bool) (db : DB)
  (u : User.t) (rows : list A) :
  filter f (users db) = [u] ->
  join_User user_id f db rows =
  filter (fun row => user_id row =? User.id u) rows.
Proof.
  intros Hf. unfold join_User.
  induction rows as [| row rows IH]; simpl; trivial.
  rewrite IH, filter_andb, Hf. simpl. rewrite (Z.eqb_sym (User.id u)).
  destruct (user_id row =? User.id u); reflexivity.
Qed.

Lemma Active_join_sessions (db : DB) (code : str) (u : User.t) :
  User_filter_by_code code db = [u] ->
  Active_join_User_filter_by_code code db = sessions_of db (User.id u).
Proof.
  intros H. unfold Active_join_User_filter_by_code, sessions_of.
  now apply join_User_one.
Qed.

Lemma scan_sign_in (db : DB) (now db_now : Z) (ev : Event.t) (name code : str)
  (u : User.t) :
  Event.is_active ev now = true ->
  canonical_name name = Some code -> code <> [] ->
  User_filter_by_code code db = [u] -> User.approved u = true ->
  sessions_of db (User.id u) = [] ->
  SqliteModel.scan now db_now (Some ev) name db =
  outcome db
    (with_tables db
       (active db
        ++ [Active.mk (next_id (map Active.id (active db))) (User.id u)
                      (Event.id ev) db_now])
       (stamps db))
    u (lit "in").
Proof.
  intros Hact Hcode Hne Hu Happ Hs.
  unfold SqliteModel.scan. rewrite Hact, Hcode.
  destruct code as [| c0 code]; [congruence |].
  cbn [negb truthy].
  unfold bind, gets. rewrite Hu.
  change (one_or_none [u] db) with (Ret (Some u) db). cbv beta iota.
  rewrite Happ. cbn [negb].
  rewrite (Active_join_sessions _ _ Hu), Hs.
  change (one_or_none (@nil Active.t) db) with (Ret (@None Active.t) db).
  cbv beta iota.
  unfold session_add_Active, session_commit, human_readable, bind, gets,
    ret, raise, outcome, with_tables, role_of.
  cbn [roles]. destruct (find _ (roles db)); reflexivity.
Qed.

Lemma scan_sign_out (db : DB) (now db_now : Z) (ev : Event.t)
  (name code : str) (u : User.t) (a : Active.t) :
  Event.is_active ev now = true ->
  canonical_name name = Some code -> code <> [] ->
  User_filter_by_code code db = [u] -> User.approved u = true ->
  sessions_of db (User.id u) = [a] ->
  SqliteModel.scan now db_now (Some ev) name db =
  outcome db
    (with_tables db
       (filter (fun x => negb (Active.id x =? Active.id a)) (active db))
       (stamps db
        ++ [Stamps.mk (next_id (map Stamps.id (stamps db))) (User.id u)
                      (Event.id ev) (Active.start a) db_now]))
    u (lit "out after " ++ str_timedelta (db_now - Active.start a)).
Proof.
  intros Hact Hcode Hne Hu Happ Hs.
  unfold SqliteModel.scan. rewrite Hact, Hcode.
  destruct code as [| c0 code]; [congruence |].
  cbn [negb truthy].
  unfold bind, gets. rewrite Hu.
  change (one_or_none [u] db) with (Ret (Some u) db). cbv beta iota.
  rewrite Happ. cbn [negb].
  rewrite (Active_join_sessions _ _ Hu), Hs.
  change (one_or_none [a] db) with (Ret (Some a) db).
  cbv beta iota.
  unfold session_delete_Active, modify, session_add_Stamps, session_commit,
    human_readable, bind, gets, ret, raise, outcome, with_tables, role_of.
  cbn [roles stamps users subteams events event_types active Stamps.elapsed
       Stamps.end_ Stamps.start].
  destruct (find _ (roles db)); reflexivity.
Qed.

(** ** [scan] *)

Lemma sessions_of_session (db : DB) (a : Active.t) :
  one_session_per_user db = true -> In a (active db) ->
  sessions_of db (Active.user_id a) = [a].
Proof.
  intros H Ha. unfold sessions_of.
  now apply (@filter_key_in _ _ Active.user_id _ Z_eqb_eq).
Qed.

Lemma readable (db : DB) (u : User.t) (r : Role.t) (db' : DB) (sign : str) :
  role_of db u = Some r ->
  outcome db db' u sign =
  Ret (Some (StampEvent.mk
               ((if Role.mentor r then lit "*" else []) ++ User.name u) sign))
      db'.
Proof. unfold outcome. now intros ->. Qed.

(** C1: when an approved user with an open session scans at an active
    event, the session is deleted, exactly one stamp is added, running from
    the session's start to the database's current time, and the outcome reads
    "out after" the time elapsed between the two.  The tables satisfy the
    schema's constraints and hold at most one session for a user. *)
Theorem scan_signs_out (db : DB) (now db_now : Z) (ev : Event.t) (name : str)
  (u : User.t) (r : Role.t) (a : Active.t) :
  constraints db = true ->
  one_session_per_user db = true ->
  Event.is_active ev now = true ->
  In u (users db) -> User.approved u = true -> role_of db u = Some r ->
  canonical_name name = Some (User.code u) -> User.code u <> [] ->
  In a (active db) -> Active.user_id a = User.id u ->
  exists stamp db',
    SqliteModel.scan now db_now (Some ev) name db =
    Ret (Some (StampEvent.mk
                 ((if Role.mentor r then lit "*" else []) ++ User.name u)
                 (lit "out after "
                    ++ str_timedelta (db_now - Active.start a))))
        db'
    /\ ~ In a (active db')
    /\ (forall b, In b (active db') <-> In b (active db) /\ b <> a)
    /\ stamps db' = stamps db ++ [stamp]
    /\ Stamps.user_id stamp = User.id u
    /\ Stamps.event_id stamp = Event.id ev
    /\ Stamps.start stamp = Active.start a
    /\ Stamps.end_ stamp = db_now
    /\ Stamps.elapsed stamp = db_now - Active.start a.
Proof.
  intros Hc H1 Hact Hu Happ Hr Hcode Hne Ha Hau.
  pose proof (@sessions_of_session db a H1 Ha) as Hs. rewrite Hau in Hs.
  pose proof (@User_filter_by_code_in db u Hc Hu) as Hq.
  eexists. eexists. split.
  - rewrite (@scan_sign_out db now db_now ev name _ u a Hact Hcode Hne Hq Happ Hs).
    apply (@readable db u r _ _ Hr).
  - unfold with_tables. cbn [active stamps Stamps.user_id Stamps.event_id Stamps.start
                Stamps.end_ Stamps.elapsed].
    assert (Hin : forall b, In b (filter (fun x => negb (Active.id x =? Active.id a)) (active db))
               <-> In b (active db) /\ b <> a).
    { intros b. rewrite filter_In. split; intros [Hb Hn]; split; trivial.
      - intros ->. rewrite Z.eqb_refl in Hn. discriminate.
      - apply negb_true_iff. apply Z.eqb_neq. intros E. apply Hn.
        apply (@nodupb_key_inj _ _ Active.id _ Z_eqb_eq b a (active db)); trivial.
        now apply constraints_active_ids. }
    split; [intros Hf; apply Hin in Hf; now destruct Hf |].
    split; [exact Hin |]. repeat split.
Qed.

Lemma scan_signs_out_witness :
  constraints signed_in_db = true
  /\ one_session_per_user signed_in_db = true
  /\ Event.is_active window_event t_10_20 = true
  /\ In jane (users signed_in_db)
  /\ User.approved jane = true
  /\ role_of signed_in_db jane = Some student
  /\ canonical_name (lit "Doe, Jane") = Some (User.code jane)
  /\ User.code jane <> []
  /\ In jane_session (active signed_in_db)
  /\ Active.user_id jane_session = User.id jane
  /\ exists stamp db',
       SqliteModel.scan t_10_20 t_10_20 (Some window_event) (lit "Doe, Jane")
                        signed_in_db =
       Ret (Some (StampEvent.mk (lit "Jane Doe") (lit "out after 0:15:00")))
           db'
       /\ active db' = []
       /\ stamps db' = [stamp]
       /\ Stamps.start stamp = t_10_05
       /\ Stamps.end_ stamp = t_10_20.
Proof.
  assert (H1 : constraints signed_in_db = true) by reflexivity.
  assert (H2 : one_session_per_user signed_in_db = true) by reflexivity.
  assert (H3 : Event.is_active window_event t_10_20 = true) by reflexivity.
  assert (H4 : In jane (users signed_in_db)) by (left; reflexivity).
  assert (H5 : User.approved jane = true) by reflexivity.
  assert (H6 : role_of signed_in_db jane = Some student) by reflexivity.
  assert (H7 : canonical_name (lit "Doe, Jane") = Some (User.code jane))
    by (vm_compute; reflexivity).
  assert (H8 : User.code jane <> []) by (vm_compute; discriminate).
  assert (H9 : In jane_session (active signed_in_db)) by (left; reflexivity).
  assert (H10 : Active.user_id jane_session = User.id jane) by reflexivity.
  repeat (split; [assumption |]).
  destruct (@scan_signs_out signed_in_db t_10_20 t_10_20 window_event
              (lit "Doe, Jane") jane student jane_session
              H1 H2 H3 H4 H5 H6 H7 H8 H9 H10)
    as (stamp & db' & Hscan & _ & Hiff & Hst & _ & _ & Hs & He & _).
  exists stamp, db'. split; [exact Hscan |].
  split; [| repeat split; assumption].
  destruct (active db') as [| b l]; [reflexivity |]. exfalso.
  destruct (proj1 (Hiff b) (or_introl eq_refl)) as [[Hb | []] Hn].
  apply Hn. symmetry. exact Hb.
Defined.

(** C2: when an approved user with no open session scans at an active
    event, exactly one session is added for that user, starting at the
    database's current time, no stamp is added, and the outcome reads "in". *)
Theorem scan_signs_in (db : DB) (now db_now : Z) (ev : Event.t) (name : str)
  (u : User.t) (r : Role.t) :
  constraints db = true ->
  Event.is_active ev now = true ->
  In u (users db) -> User.approved u = true -> role_of db u = Some r ->
  canonical_name name = Some (User.code u) -> User.code u <> [] ->
  sessions_of db (User.id u) = [] ->
  exists session db',
    SqliteModel.scan now db_now (Some ev) name db =
    Ret (Some (StampEvent.mk
                 ((if Role.mentor r then lit "*" else []) ++ User.name u)
                 (lit "in")))
        db'
    /\ active db' = active db ++ [session]
    /\ sessions_of db' (User.id u) = [session]
    /\ Active.user_id session = User.id u
    /\ Active.event_id session = Event.id ev
    /\ Active.start session = db_now
    /\ stamps db' = stamps db.
Proof.
  intros Hc Hact Hu Happ Hr Hcode Hne Hs.
  pose proof (@User_filter_by_code_in db u Hc Hu) as Hq.
  eexists. eexists. split.
  - rewrite (@scan_sign_in db now db_now ev name _ u Hact Hcode Hne Hq Happ Hs).
    apply (@readable db u r _ _ Hr).
  - unfold with_tables, sessions_of in *.
    cbn [active stamps Active.user_id Active.event_id Active.start].
    rewrite filter_app, Hs. cbn [filter Active.user_id app].
    rewrite Z.eqb_refl. repeat split.
Qed.

Lemma scan_signs_in_witness :
  constraints open_db = true
  /\ Event.is_active window_event t_10_05 = true
  /\ In jane (users open_db)
  /\ User.approved jane = true
  /\ role_of open_db jane = Some student
  /\ canonical_name (lit "Doe, Jane") = Some (User.code jane)
  /\ User.code jane <> []
  /\ sessions_of open_db (User.id jane) = []
  /\ exists session db',
       SqliteModel.scan t_10_05 t_10_05 (Some window_event) (lit "Doe, Jane")
                        open_db =
       Ret (Some (StampEvent.mk (lit "Jane Doe") (lit "in"))) db'
       /\ active db' = [session]
       /\ Active.start session = t_10_05
       /\ stamps db' = [].
Proof.
  assert (H1 : constraints open_db = true) by reflexivity.
  assert (H3 : Event.is_active window_event t_10_05 = true) by reflexivity.
  assert (H4 : In jane (users open_db)) by (left; reflexivity).
  assert (H5 : User.approved jane = true) by reflexivity.
  assert (H6 : role_of open_db jane = Some student) by reflexivity.
  assert (H7 : canonical_name (lit "Doe, Jane") = Some (User.code jane))
    by (vm_compute; reflexivity).
  assert (H8 : User.code jane <> []) by (vm_compute; discriminate).
  assert (H9 : sessions_of open_db (User.id jane) = []) by reflexivity.
  repeat (split; [assumption |]).
  destruct (@scan_signs_in open_db t_10_05 t_10_05 window_event
              (lit "Doe, Jane") jane student H1 H3 H4 H5 H6 H7 H8 H9)
    as (session & db' & Hscan & Hact & _ & _ & _ & Hs & Hst).
  exists session, db'. repeat split; assumption.
Defined.

Lemma scan_without_event (db : DB) (now db_now : Z) (ev : option Event.t)
  (name : str) :
  ev_and_is_active ev now = false ->
  SqliteModel.scan now db_now ev name db = Ret None db.
Proof.
  intros H. unfold SqliteModel.scan.
  destruct ev as [e |]; [| reflexivity]. simpl in H. now rewrite H.
Qed.

Lemma scan_without_key (db : DB) (now db_now : Z) (ev : option Event.t)
  (name : str) :
  truthy (canonical_name name) = false ->
  SqliteModel.scan now db_now ev name db = Ret None db.
Proof.
  intros H. unfold SqliteModel.scan.
  destruct ev as [e |]; [| reflexivity].
  destruct (Event.is_active e now); [| reflexivity]. now rewrite H.
Qed.

Lemma scan_without_user (db : DB) (now db_now : Z) (ev : option Event.t)
  (name : str) :
  constraints db = true ->
  (forall u, In u (users db) -> Some (User.code u) = canonical_name name ->
             User.approved u = false) ->
  SqliteModel.scan now db_now ev name db = Ret None db.
Proof.
  intros Hc H. unfold SqliteModel.scan.
  destruct ev as [e |]; [| reflexivity].
  destruct (Event.is_active e now); [| reflexivity]. cbn [negb].
  destruct (truthy (canonical_name name)) eqn:Ht; [| reflexivity]. cbn [negb].
  destruct (canonical_name name) as [code |]; [| discriminate].
  unfold bind, gets.
  destruct (@User_filter_by_code_cases db code Hc) as [Hq | (u & Hu & Hk & Hq)];
    rewrite Hq.
  - reflexivity.
  - change (one_or_none [u] db) with (Ret (Some u) db). cbv beta iota.
    rewrite (H u Hu) by now rewrite Hk. reflexivity.
Qed.

(** C3: a scan whose event is missing or not active, or whose identity
    string has no canonical key, or whose key belongs to no approved user,
    returns nothing and leaves every table as it was. *)
Theorem scan_rejects (db : DB) (now db_now : Z) (ev : option Event.t)
  (name : str) :
  constraints db = true ->
  ev_and_is_active ev now = false
  \/ truthy (canonical_name name) = false
  \/ (forall u, In u (users db) -> Some (User.code u) = canonical_name name ->
                User.approved u = false) ->
  SqliteModel.scan now db_now ev name db = Ret None db.
Proof.
  intros Hc [Hev | [Hkey | Huser]].
  - now apply scan_without_event.
  - now apply scan_without_key.
  - now apply scan_without_user.
Qed.

Lemma scan_rejects_witness :
  constraints signed_in_db = true
  /\ (ev_and_is_active (Some window_event) t_12_00 = false
      \/ truthy (canonical_name (lit "Doe, Jane")) = false
      \/ (forall u, In u (users signed_in_db) ->
                    Some (User.code u) = canonical_name (lit "Doe, Jane") ->
                    User.approved u = false))
  /\ SqliteModel.scan t_12_00 t_12_00 (Some window_event) (lit "Doe, Jane")
                      signed_in_db = Ret None signed_in_db.
Proof.
  assert (H1 : constraints signed_in_db = true) by reflexivity.
  assert (H2 : ev_and_is_active (Some window_event) t_12_00 = false
               \/ truthy (canonical_name (lit "Doe, Jane")) = false
               \/ (forall u, In u (users signed_in_db) ->
                      Some (User.code u) = canonical_name (lit "Doe, Jane") ->
                      User.approved u = false))
    by (left; reflexivity).
  split; [exact H1 | split; [exact H2 |]].
  exact (@scan_rejects signed_in_db t_12_00 t_12_00 (Some window_event)
           (lit "Doe, Jane") H1 H2).
Defined.

(** ** The toggle is per user, not per user and event *)

(** C4, as stated, fails: Jane's session was opened at the build night; her
    scan at the outreach event, a different event, removes it. *)
Lemma scan_other_event_counterexample :
  In jane_session (active two_event_db)
  /\ Active.event_id jane_session = Event.id window_event
  /\ Event.id outreach_event <> Event.id window_event
  /\ ~ In jane_session
         (active (state_of (SqliteModel.scan t_10_20 t_10_20
                              (Some outreach_event) (lit "Doe, Jane")
                              two_event_db))).
Proof.
  split; [left; reflexivity |]. split; [reflexivity |].
  split; [discriminate |]. vm_compute. intros [].
Qed.

Lemma state_of_outcome (db db' : DB) (u : User.t) (sign : str) :
  state_of (outcome db db' u sign) = db'.
Proof. unfold outcome. destruct (role_of db u); reflexivity. Qed.

Lemma constraints_with_tables (db : DB) (act : list Active.t)
  (st : list Stamps.t) :
  constraints db = true ->
  nodupb Z.eqb (map Active.id act) = true ->
  nodupb Z.eqb (map Stamps.id st) = true ->
  constraints (with_tables db act st) = true.
Proof.
  unfold constraints, with_tables. cbn [users roles subteams events event_types active stamps].
  intros H Ha Hs.
  repeat (apply andb_true_iff in H; destruct H as [H ?]).
  repeat (apply andb_true_iff; split); assumption.
Qed.

Lemma constraints_stamps_ids (db : DB) :
  constraints db = true -> nodupb Z.eqb (map Stamps.id (stamps db)) = true.
Proof.
  unfold constraints. intros H.
  repeat (apply andb_true_iff in H; destruct H as [H ?]). assumption.
Qed.

Lemma existsb_filter_nil {A} (f : A -> bool) (l : list A) :
  existsb f l = false <-> filter f l = [].
Proof.
  induction l as [| x l IH]; simpl; [tauto |].
  destruct (f x); simpl; [split; discriminate | exact IH].
Qed.

Lemma existsb_map_key {A} (key : A -> Z) (k : Z) (l : list A) :
  existsb (Z.eqb k) (map key l) = existsb (fun a => key a =? k) l.
Proof.
  induction l as [| x l IH]; simpl; trivial.
  now rewrite IH, (Z.eqb_sym k).
Qed.

Lemma sessions_of_cases (db : DB) (uid : Z) :
  one_session_per_user db = true ->
  sessions_of db uid = []
  \/ exists a, In a (active db) /\ Active.user_id a = uid
               /\ sessions_of db uid = [a].
Proof.
  intros H. unfold sessions_of.
  now apply (@filter_key_cases _ _ Active.user_id _ Z_eqb_eq).
Qed.

Lemma sign_in_state (db : DB) (uid eid db_now : Z) :
  constraints db = true -> one_session_per_user db = true ->
  sessions_of db uid = [] ->
  let db' :=
    with_tables db
      (active db
       ++ [Active.mk (next_id (map Active.id (active db))) uid eid db_now])
      (stamps db) in
  signed_in db' uid = negb (signed_in db uid)
  /\ sessions_of_others db' uid = sessions_of_others db uid
  /\ one_session_per_user db' = true
  /\ constraints db' = true.
Proof.
  intros Hc H1 Hs. cbv zeta.
  assert (Hf : signed_in db uid = false) by (now apply existsb_filter_nil).
  unfold signed_in, sessions_of_others, one_session_per_user in *.
  unfold with_tables at 1 2 3. cbn [active].
  rewrite existsb_app, filter_app, Hf. cbn [existsb filter Active.user_id].
  rewrite Z.eqb_refl. cbn [negb orb]. rewrite app_nil_r.
  repeat split.
  - apply (@nodupb_snoc _ _ Active.user_id _ Z_eqb_eq); trivial.
    cbn [Active.user_id]. now rewrite existsb_map_key.
  - apply constraints_with_tables; trivial; [| now apply constraints_stamps_ids].
    apply (@nodupb_snoc _ _ Active.id _ Z_eqb_eq);
      [now apply constraints_active_ids |].
    cbn [Active.id]. apply next_id_fresh.
Qed.

Lemma sign_out_state (db : DB) (a : Active.t) (eid db_now : Z) :
  constraints db = true -> one_session_per_user db = true ->
  In a (active db) ->
  let uid := Active.user_id a in
  let db' :=
    with_tables db
      (filter (fun x => negb (Active.id x =? Active.id a)) (active db))
      (stamps db
       ++ [Stamps.mk (next_id (map Stamps.id (stamps db))) uid eid
                     (Active.start a) db_now]) in
  signed_in db' uid = negb (signed_in db uid)
  /\ sessions_of_others db' uid = sessions_of_others db uid
  /\ one_session_per_user db' = true
  /\ constraints db' = true.
Proof.
  intros Hc H1 Ha. cbv zeta.
  pose proof (@constraints_active_ids db Hc) as Hids.
  assert (Ht : signed_in db (Active.user_id a) = true).
  { apply existsb_exists. exists a. split; trivial. now apply Z.eqb_eq. }
  unfold signed_in, sessions_of_others, one_session_per_user in *.
  unfold with_tables at 1 2 3. cbn [active]. rewrite Ht. cbn [negb].
  repeat split.
  - apply existsb_filter_nil. rewrite <- filter_andb.
    apply existsb_filter_nil.
    match goal with |- ?x = false => destruct x eqn:E; trivial end.
    apply existsb_exists in E. destruct E as (b & Hb & E).
    apply andb_true_iff in E. destruct E as [E1 E2].
    apply Z.eqb_eq in E1. apply negb_true_iff in E2. apply Z.eqb_neq in E2.
    exfalso. apply E2. f_equal.
    now apply (@nodupb_key_inj _ _ Active.user_id _ Z_eqb_eq b a (active db)).
  - rewrite <- filter_andb. apply filter_ext_in. intros b Hb.
    destruct (Active.user_id b =? Active.user_id a) eqn:E;
      cbn [negb andb]; trivial.
    apply negb_true_iff. apply Z.eqb_neq. intros Eid.
    assert (b = a)
      by (apply (@nodupb_key_inj _ _ Active.id _ Z_eqb_eq b a (active db));
          trivial).
    subst b. rewrite Z.eqb_refl in E. discriminate.
  - now apply (@nodupb_filter _ _ Active.user_id Z.eqb).
  - apply constraints_with_tables; trivial.
    + now apply (@nodupb_filter _ _ Active.id Z.eqb).
    + apply (@nodupb_snoc _ _ Stamps.id _ Z_eqb_eq);
        [now apply constraints_stamps_ids |].
      cbn [Stamps.id]. apply next_id_fresh.
Qed.

Lemma scan_cases (db : DB) (now db_now : Z) (ev : option Event.t)
  (name : str) :
  constraints db = true ->
  SqliteModel.scan now db_now ev name db = Ret None db
  \/ exists e u,
       ev = Some e /\ Event.is_active e now = true
       /\ In u (users db) /\ User.approved u = true
       /\ canonical_name name = Some (User.code u) /\ User.code u <> [].
Proof.
  intros Hc.
  destruct ev as [e |]; [| now left].
  destruct (Event.is_active e now) eqn:Hact;
    [| left; now apply scan_without_event].
  destruct (canonical_name name) as [code |] eqn:Hcode;
    [| left; apply scan_without_key; now rewrite Hcode].
  destruct code as [| c code];
    [left; apply scan_without_key; now rewrite Hcode |].
  destruct (@User_filter_by_code_cases db (c :: code) Hc)
    as [Hq | (u & Hu & Hk & Hq)].
  - left. apply scan_without_user; trivial. intros u Hu E.
    rewrite Hcode in E. injection E as E.
    pose proof (@User_filter_by_code_in db u Hc Hu) as Hq'.
    rewrite E, Hq in Hq'. discriminate.
  - destruct (User.approved u) eqn:Happ.
    + right. exists e, u. rewrite Hk. repeat split; trivial. discriminate.
    + left. apply scan_without_user; trivial. intros v Hv E.
      rewrite Hcode in E. injection E as E.
      pose proof (@User_filter_by_code_in db v Hc Hv) as Hq'.
      rewrite E, Hq in Hq'. injection Hq' as ->. exact Happ.
Qed.

Lemma scan_keeps_invariants (db : DB) (now db_now : Z) (ev : option Event.t)
  (name : str) :
  constraints db = true -> one_session_per_user db = true ->
  constraints (state_of (SqliteModel.scan now db_now ev name db)) = true
  /\ one_session_per_user
       (state_of (SqliteModel.scan now db_now ev name db)) = true.
Proof.
  intros Hc H1.
  destruct (@scan_cases db now db_now ev name Hc)
    as [H | (e & u & -> & Hact & Hu & Happ & Hcode & Hne)].
  - rewrite H. simpl. now split.
  - pose proof (@User_filter_by_code_in db u Hc Hu) as Hq.
    destruct (@sessions_of_cases db (User.id u) H1)
      as [Hs | (a & Ha & Hau & Hs)].
    + rewrite (@scan_sign_in db now db_now e name _ u Hact Hcode Hne Hq Happ Hs).
      rewrite state_of_outcome.
      destruct (@sign_in_state db (User.id u) (Event.id e) db_now Hc H1 Hs)
        as (_ & _ & Ho & Hk). now split.
    + rewrite (@scan_sign_out db now db_now e name _ u a Hact Hcode Hne Hq Happ Hs).
      rewrite state_of_outcome, <- Hau.
      destruct (@sign_out_state db a (Event.id e) db_now Hc H1 Ha)
        as (_ & _ & Ho & Hk). now split.
Qed.

(** C4 (amended): the sign-in state is kept per user.  Every accepted scan
    of a user, at whichever active event, flips that user between signed in
    and not signed in, so a scan at one event closes the session the same
    user opened at another; the sessions of all other users are left as they
    were, and the tables keep their constraints and at most one session for a
    user. *)
Theorem scan_toggles_user (db : DB) (now db_now : Z) (ev : Event.t)
  (name : str) (u : User.t) :
  constraints db = true ->
  one_session_per_user db = true ->
  Event.is_active ev now = true ->
  In u (users db) -> User.approved u = true ->
  canonical_name name = Some (User.code u) -> User.code u <> [] ->
  let db' := state_of (SqliteModel.scan now db_now (Some ev) name db) in
  signed_in db' (User.id u) = negb (signed_in db (User.id u))
  /\ sessions_of_others db' (User.id u) = sessions_of_others db (User.id u)
  /\ one_session_per_user db' = true
  /\ constraints db' = true.
Proof.
  intros Hc H1 Hact Hu Happ Hcode Hne.
  pose proof (@User_filter_by_code_in db u Hc Hu) as Hq.
  destruct (@sessions_of_cases db (User.id u) H1) as [Hs | (a & Ha & Hau & Hs)].
  - rewrite (@scan_sign_in db now db_now ev name _ u Hact Hcode Hne Hq Happ Hs).
    cbv zeta. rewrite state_of_outcome. now apply sign_in_state.
  - rewrite (@scan_sign_out db now db_now ev name _ u a Hact Hcode Hne Hq Happ Hs).
    cbv zeta. rewrite state_of_outcome, <- Hau. now apply sign_out_state.
Qed.

Lemma scan_toggles_user_witness :
  constraints two_event_db = true
  /\ one_session_per_user two_event_db = true
  /\ Event.is_active outreach_event t_10_20 = true
  /\ In jane (users two_event_db)
  /\ User.approved jane = true
  /\ canonical_name (lit "Doe, Jane") = Some (User.code jane)
  /\ User.code jane <> []
  /\ signed_in
       (state_of (SqliteModel.scan t_10_20 t_10_20 (Some outreach_event)
                                   (lit "Doe, Jane") two_event_db))
       (User.id jane)
     = negb (signed_in two_event_db (User.id jane)).
Proof.
  assert (H1 : constraints two_event_db = true) by reflexivity.
  assert (H2 : one_session_per_user two_event_db = true) by reflexivity.
  assert (H3 : Event.is_active outreach_event t_10_20 = true) by reflexivity.
  assert (H4 : In jane (users two_event_db)) by (left; reflexivity).
  assert (H5 : User.approved jane = true) by reflexivity.
  assert (H7 : canonical_name (lit "Doe, Jane") = Some (User.code jane))
    by (vm_compute; reflexivity).
  assert (H8 : User.code jane <> []) by (vm_compute; discriminate).
  repeat (split; [assumption |]).
  exact (proj1 (@scan_toggles_user two_event_db t_10_20 t_10_20
                  outreach_event (lit "Doe, Jane") jane
                  H1 H2 H3 H4 H5 H7 H8)).
Defined.

(** ** Keys that [scan] accepts *)

Lemma scan_empty_key (db : DB) (now db_now : Z) (ev : option Event.t) :
  SqliteModel.scan now db_now ev [] db = Ret None db.
Proof.
  unfold SqliteModel.scan. destruct ev as [e |]; [| reflexivity].
  destruct (Event.is_active e now); reflexivity.
Qed.

Lemma scan_single_user (now db_now : Z) (ev : Event.t) (s : str) :
  Event.is_active ev now = true -> b64_shape s = true -> s <> [] ->
  SqliteModel.scan now db_now (Some ev) s (single_user_db s)
  <> Ret None (single_user_db s).
Proof.
  intros Hact Hs Hne.
  assert (Hq : User_filter_by_code s (single_user_db s)
               = [User.mk 1 (lit "Jane Doe") s 1 None true true]).
  { unfold User_filter_by_code, single_user_db. cbn [users filter User.code].
    now rewrite str_eqb_refl. }
  rewrite (@scan_sign_in (single_user_db s) now db_now ev s s _ Hact
             (@canonical_name_b64 s Hs) Hne Hq eq_refl eq_refl).
  unfold outcome. cbn. discriminate.
Qed.

(** C10: a string of base64 digits with base64 length and padding, such as
    the plain word "John" or the empty string, is no name and comes back from
    [canonical_name] unchanged; of these keys [scan] turns down the empty one
    only. *)
Theorem canonical_name_passes_keys (s : str) :
  b64_shape s = true ->
  canonical_name s = Some s
  /\ (truthy (canonical_name s) = false <-> s = [])
  /\ (forall now db_now ev,
        Event.is_active ev now = true ->
        ((forall db, SqliteModel.scan now db_now (Some ev) s db = Ret None db)
         <-> s = []))
  /\ canonical_name (lit "John") = Some (lit "John")
  /\ canonical_name [] = Some [].
Proof.
  intros Hs. pose proof (@canonical_name_b64 s Hs) as Hc.
  split; [exact Hc |]. split; [| split].
  - rewrite Hc. destruct s; simpl; split; congruence.
  - intros now db_now ev Hact. split.
    + intros H. destruct s as [| c s]; trivial. exfalso.
      apply (@scan_single_user now db_now ev (c :: s) Hact Hs); [discriminate |].
      apply H.
    + intros -> db. apply scan_empty_key.
  - split; vm_compute; reflexivity.
Qed.

Lemma canonical_name_passes_keys_witness :
  b64_shape (lit "John") = true
  /\ canonical_name (lit "John") = Some (lit "John")
  /\ (truthy (canonical_name (lit "John")) = false <-> lit "John" = []).
Proof.
  assert (H : b64_shape (lit "John") = true) by reflexivity.
  split; [exact H |].
  destruct (@canonical_name_passes_keys (lit "John") H) as (H1 & H2 & _).
  split; assumption.
Defined.

(** ** The queries only read *)

Lemma read_only_ret {A} (a : A) : read_only (ret a).
Proof. intros db. reflexivity. Qed.

Lemma read_only_raise {A} (e : exn) : read_only (@raise A e).
Proof. intros db. reflexivity. Qed.

Lemma read_only_gets {A} (f : DB -> A) : read_only (gets f).
Proof. intros db. reflexivity. Qed.

Lemma read_only_bind {A B} (c : M A) (k : A -> M B) :
  read_only c -> (forall a, read_only (k a)) -> read_only (bind c k).
Proof.
  intros Hc Hk db. unfold bind. specialize (Hc db).
  destruct (c db) as [a db' | e db']; simpl in Hc; subst db'.
  - apply Hk.
  - reflexivity.
Qed.

Lemma read_only_mapM {A B} (f : A -> M B) (l : list A) :
  (forall a, read_only (f a)) -> read_only (mapM f l).
Proof.
  intros Hf. induction l as [| x l IH]; simpl.
  - apply read_only_ret.
  - apply read_only_bind; [apply Hf |]. intros y.
    apply read_only_bind; [exact IH |]. intros ys. apply read_only_ret.
Qed.

Lemma read_only_related {A} (x : option A) : read_only (related x).
Proof. destruct x; [apply read_only_ret | apply read_only_raise]. Qed.

Lemma read_only_human_readable (u : User.t) : read_only (human_readable u).
Proof.
  unfold human_readable. apply read_only_bind; [apply read_only_gets |].
  intros [r |]; [apply read_only_ret | apply read_only_raise].
Qed.

Ltac read_only_steps :=
  repeat first
    [ apply read_only_ret
    | apply read_only_gets
    | apply read_only_related
    | apply read_only_human_readable
    | apply read_only_bind; [| intro] ].

Lemma read_only_Stamps_as_dict (s : Stamps.t) : read_only (Stamps_as_dict s).
Proof. unfold Stamps_as_dict. read_only_steps. Qed.

Lemma read_only_Stamps_as_list (s : Stamps.t) : read_only (Stamps_as_list s).
Proof. unfold Stamps_as_list. read_only_steps. Qed.

Lemma read_only_Active_as_dict (a : Active.t) : read_only (Active_as_dict a).
Proof. unfold Active_as_dict. read_only_steps. Qed.

(** C9: [get_stamps], [get_active] and [export] leave every table as it
    was, whatever the filters and whether they return or raise. *)
Theorem queries_read_only (db : DB) (name event : option str)
  (start end_ : option Z) (type_ : option EventType.t)
  (subteam : option Subteam.t) (headers : bool) :
  state_of (SqliteModel.get_stamps name event db) = db
  /\ state_of (SqliteModel.get_active event db) = db
  /\ state_of (SqliteModel.export name start end_ type_ subteam headers db)
     = db.
Proof.
  split; [| split].
  - apply (@read_only_bind _ _ _ _ (read_only_raise _)). intros enabled.
    apply (@read_only_bind _ _ _ _ (read_only_gets _)). intros rows.
    apply read_only_mapM. apply read_only_Stamps_as_dict.
  - apply (@read_only_bind _ _ _ _ (read_only_gets _)). intros rows.
    apply read_only_mapM. apply read_only_Active_as_dict.
  - apply (@read_only_bind _ _ _ _ (read_only_raise _)). intros enabled.
    apply (@read_only_bind _ _ _ _ (read_only_gets _)). intros rows.
    apply read_only_bind; [| intros result; apply read_only_ret].
    apply read_only_mapM. apply read_only_Stamps_as_list.
Qed.

(** ** Listing and exporting stamps *)

Lemma export_query_range (enabled : criterion) (db : DB) (start end_ : Z) :
  SqliteModel.export_query enabled None (Some start) (Some end_) None None db =
  filter (fun s => Stamps.end_ s >? end_)
         (filter (fun s => Stamps.start s <? start)
                 (filter (enabled db) (stamps db))).
Proof. reflexivity. Qed.

(** C7, on a failing input: the only stamp, 10:05 to 10:20, lies inside the
    window from 10:00 to 12:00.  The export for that window raises at its
    first line, the filter on [Stamps.event.enabled], so the stamp is not
    returned.  The range filter the export would go on with does not return
    it either: whatever the first filter lets through, it keeps no stamp for
    that window, and for the window from 10:10 to 10:15, in which the stamp
    does not lie, it keeps every stamp the first filter does.  The range
    filter keeps the stamps that start before the window's start and end
    after its end. *)
Theorem export_range_inverted :
  stamps stamp_db = [jane_stamp]
  /\ t_10_00 <= Stamps.start jane_stamp
  /\ Stamps.end_ jane_stamp <= t_12_00
  /\ SqliteModel.export None (Some t_10_00) (Some t_12_00) None None true
                        stamp_db
     = Raise AttributeError stamp_db
  /\ (forall enabled,
        SqliteModel.export_query enabled None (Some t_10_00) (Some t_12_00)
                                 None None stamp_db = [])
  /\ (forall enabled,
        SqliteModel.export_query enabled None (Some t_10_10) (Some t_10_15)
                                 None None stamp_db
        = filter (enabled stamp_db) [jane_stamp]).
Proof.
  split; [reflexivity |].
  split; [vm_compute; congruence |].
  split; [vm_compute; congruence |].
  split; [reflexivity |].
  split; intros enabled; rewrite export_query_range;
    cbn [stamps stamp_db filter];
    destruct (enabled stamp_db jane_stamp); reflexivity.
Qed.

Lemma join_User_subset {A} (user_id : A -> Z) (f : User.t -> bool) (db : DB)
  (rows : list A) (x : A) :
  In x (join_User user_id f db rows) -> In x rows.
Proof.
  unfold join_User. intros H. apply in_flat_map in H.
  destruct H as (row & Hrow & H). apply in_map_iff in H.
  destruct H as (u & <- & _). exact Hrow.
Qed.


Lemma find_unique_key {A} (key : A -> Z) (l : list A) (x : A) :
  nodupb Z.eqb (map key l) = true -> In x l ->
  find (fun y => key y =? key x) l = Some x.
Proof.
  induction l as [| y l IH]; simpl; [contradiction |].
  intros H Hx. apply andb_true_iff in H. destruct H as [H1 H2].
  apply negb_true_iff in H1.
  destruct Hx as [-> | Hx]; [now rewrite Z.eqb_refl |].
  destruct (key y =? key x) eqn:E; [| now apply IH].
  apply Z.eqb_eq in E. exfalso.
  assert (existsb (Z.eqb (key y)) (map key l) = true); [| congruence].
  apply existsb_exists. exists (key x). split; [now apply in_map |].
  now apply Z.eqb_eq.
Qed.


(** ** What every [scan] keeps *)

Lemma state_of_readable (user : User.t) (sign : str) (db : DB) :
  state_of
    (match human_readable user db with
     | Ret a db' => ret (Some (StampEvent.mk a sign)) db'
     | Raise e db' => Raise e db'
     end) = db.
Proof.
  unfold human_readable, bind, gets, ret, raise.
  destruct (role_of db user); reflexivity.
Qed.

Lemma scan_state_shape (db : DB) (now db_now : Z) (ev : option Event.t)
  (name : str) :
  let db' := state_of (SqliteModel.scan now db_now ev name db) in
  db' = db
  \/ (exists row,
        db' = with_tables db (active db ++ [row]) (stamps db)
        /\ Active.start row = db_now)
  \/ (exists a st,
        db' = with_tables db
                (filter (fun x => negb (Active.id x =? Active.id a))
                        (active db))
                (stamps db ++ [st])
        /\ In a (active db)
        /\ Stamps.start st = Active.start a /\ Stamps.end_ st = db_now).
Proof.
  cbv zeta. unfold SqliteModel.scan.
  destruct ev as [e |]; [| now left].
  destruct (Event.is_active e now); [| now left]. cbn [negb].
  destruct (truthy (canonical_name name)); [| now left]. cbn [negb].
  set (code := match canonical_name name with Some c => c | None => [] end).
  unfold bind, gets.
  destruct (User_filter_by_code code db) as [| u [| u2 us]];
    [now left | | now left].
  change (one_or_none [u] db) with (Ret (Some u) db). cbv beta iota.
  destruct (User.approved u); [| now left]. cbn [negb].
  destruct (Active_join_User_filter_by_code code db) as [| a [| a2 az]] eqn:Hq;
    [ | | now left].
  - change (one_or_none (@nil Active.t) db) with (Ret (@None Active.t) db).
    cbv beta iota. right. left.
    unfold session_add_Active, session_commit, ret. cbv beta iota.
    rewrite state_of_readable. eexists. split; reflexivity.
  - change (one_or_none [a] db) with (Ret (Some a) db).
    cbv beta iota. right. right.
    unfold session_delete_Active, modify, session_add_Stamps, session_commit,
      ret. cbv beta iota.
    rewrite state_of_readable. exists a. eexists.
    split; [reflexivity |]. split; [| split; reflexivity].
    assert (Hin : In a (Active_join_User_filter_by_code code db))
      by (rewrite Hq; now left).
    now apply join_User_subset in Hin.
Qed.

(** X1: whatever its arguments and the tables, [scan] leaves the users,
    roles, subteams, events and event types as they were, keeps every stamp
    and adds at most one, which ends at the database's current time, and
    leaves no session that was not there before or starts at that time. *)
Theorem scan_frame (db : DB) (now db_now : Z) (ev : option Event.t)
  (name : str) :
  let db' := state_of (SqliteModel.scan now db_now ev name db) in
  users db' = users db /\ roles db' = roles db
  /\ subteams db' = subteams db /\ events db' = events db
  /\ event_types db' = event_types db
  /\ (exists l, stamps db' = stamps db ++ l /\ (List.length l <= 1)%nat
                /\ Forall (fun st => Stamps.end_ st = db_now) l)
  /\ Forall (fun a => In a (active db) \/ Active.start a = db_now)
            (active db').
Proof.
  cbv zeta.
  destruct (scan_state_shape db now db_now ev name)
    as [H | [(row & H & Hrow) | (a & st & H & Ha & Hs & He)]];
    rewrite H; unfold with_tables;
    cbn [users roles subteams events event_types stamps active];
    repeat (split; [reflexivity |]).
  - split.
    + exists []. rewrite app_nil_r. repeat split; auto.
    + apply Forall_forall. auto.
  - split.
    + exists []. rewrite app_nil_r. repeat split; auto.
    + apply Forall_forall. intros x Hx. apply in_app_iff in Hx.
      destruct Hx as [Hx | [<- | []]]; auto.
  - split.
    + exists [st]. repeat split; auto.
    + apply Forall_forall. intros x Hx. apply filter_In in Hx. tauto.
Qed.
Lemma scan_not_multiple (db : DB) (now db_now : Z) (ev : option Event.t)
  (name : str) (d : DB) :
  constraints db = true -> one_session_per_user db = true ->
  SqliteModel.scan now db_now ev name db <> Raise MultipleResultsFound d.
Proof.
  intros Hc H1.
  destruct (@scan_cases db now db_now ev name Hc)
    as [H | (e & u & -> & Hact & Hu & Happ & Hcode & Hne)].
  - rewrite H. discriminate.
  - pose proof (@User_filter_by_code_in db u Hc Hu) as Hq.
    destruct (@sessions_of_cases db (User.id u) H1)
      as [Hs | (a & Ha & Hau & Hs)].
    + rewrite (@scan_sign_in db now db_now e name _ u Hact Hcode Hne Hq Happ Hs).
      unfold outcome. destruct (role_of db u); discriminate.
    + rewrite (@scan_sign_out db now db_now e name _ u a Hact Hcode Hne Hq Happ Hs).
      unfold outcome. destruct (role_of db u); discriminate.
Qed.

(** X2: from tables that meet the schema's constraints and hold at most one
    session for a user, every run of scans leads to such tables again, and no
    scan on them fails with [MultipleResultsFound]. *)
Theorem run_scans_keeps_invariants (calls : list ScanCall) (db : DB) :
  constraints db = true -> one_session_per_user db = true ->
  constraints (run_scans calls db) = true
  /\ one_session_per_user (run_scans calls db) = true
  /\ forall now db_now ev name d,
       SqliteModel.scan now db_now ev name (run_scans calls db)
       <> Raise MultipleResultsFound d.
Proof.
  revert db. induction calls as [| c calls IH]; intros db Hc H1; simpl.
  - repeat split; trivial. intros. now apply scan_not_multiple.
  - destruct (@scan_keeps_invariants db (call_now c) (call_db_now c)
                (call_ev c) (call_name c) Hc H1) as [Hc' H1'].
    now apply IH.
Qed.

Lemma run_scans_keeps_invariants_witness :
  constraints open_db = true
  /\ one_session_per_user open_db = true
  /\ constraints
       (run_scans [mkScanCall t_10_05 t_10_05 (Some window_event)
                              (lit "Doe, Jane");
                   mkScanCall t_10_20 t_10_20 (Some window_event)
                              (lit "Doe, Jane")] open_db) = true.
Proof.
  assert (H1 : constraints open_db = true) by reflexivity.
  assert (H2 : one_session_per_user open_db = true) by reflexivity.
  split; [exact H1 | split; [exact H2 |]].
  exact (proj1 (@run_scans_keeps_invariants
                  [mkScanCall t_10_05 t_10_05 (Some window_event)
                              (lit "Doe, Jane");
                   mkScanCall t_10_20 t_10_20 (Some window_event)
                              (lit "Doe, Jane")] open_db H1 H2)).
Defined.

Lemma filter_fresh_id (l : list Active.t) (row : Active.t) :
  Active.id row = next_id (map Active.id l) ->
  filter (fun x => negb (Active.id x =? Active.id row)) (l ++ [row]) = l.
Proof.
  intros Hid. rewrite filter_app. cbn [filter]. rewrite Z.eqb_refl. cbn [negb].
  rewrite app_nil_r. 
  assert (H : forall x, In x l -> negb (Active.id x =? Active.id row) = true).
  { intros x Hx. apply negb_true_iff. apply Z.eqb_neq. rewrite Hid.
    pose proof (@next_id_above (map Active.id l) (Active.id x)
                  (in_map Active.id l x Hx)). lia. }
  clear Hid. induction l as [| y l IH]; simpl; trivial.
  rewrite (H y (or_introl eq_refl)). f_equal. apply IH.
  intros x Hx. apply H. now right.
Qed.

(** X3: an approved user without a session who scans at an active event
    and scans again, at that or another active event, is signed in and then
    out: the sessions table is back to what it was, and one stamp is added,
    at the event of the second scan, from the database time of the first scan
    to that of the second, which the second outcome reports as elapsed. *)
Theorem scan_in_then_out (db : DB) (now1 t1 now2 t2 : Z) (ev1 ev2 : Event.t)
  (name : str) (u : User.t) (r : Role.t) :
  constraints db = true ->
  In u (users db) -> User.approved u = true -> role_of db u = Some r ->
  canonical_name name = Some (User.code u) -> User.code u <> [] ->
  sessions_of db (User.id u) = [] ->
  Event.is_active ev1 now1 = true -> Event.is_active ev2 now2 = true ->
  exists db1 stamp db2,
    SqliteModel.scan now1 t1 (Some ev1) name db =
    Ret (Some (StampEvent.mk
                 ((if Role.mentor r then lit "*" else []) ++ User.name u)
                 (lit "in")))
        db1
    /\ SqliteModel.scan now2 t2 (Some ev2) name db1 =
       Ret (Some (StampEvent.mk
                    ((if Role.mentor r then lit "*" else []) ++ User.name u)
                    (lit "out after " ++ str_timedelta (t2 - t1))))
           db2
    /\ active db2 = active db
    /\ stamps db2 = stamps db ++ [stamp]
    /\ Stamps.user_id stamp = User.id u
    /\ Stamps.event_id stamp = Event.id ev2
    /\ Stamps.start stamp = t1 /\ Stamps.end_ stamp = t2.
Proof.
  intros Hc Hu Happ Hr Hcode Hne Hs Ha1 Ha2.
  pose proof (@User_filter_by_code_in db u Hc Hu) as Hq.
  set (row := Active.mk (next_id (map Active.id (active db))) (User.id u)
                        (Event.id ev1) t1).
  set (db1 := with_tables db (active db ++ [row]) (stamps db)).
  assert (Hq1 : User_filter_by_code (User.code u) db1 = [u]) by exact Hq.
  assert (Hs1 : sessions_of db1 (User.id u) = [row]).
  { unfold sessions_of in *. unfold db1, with_tables. cbn [active].
    rewrite filter_app, Hs. cbn [filter row Active.user_id].
    now rewrite Z.eqb_refl. }
  exists db1. eexists. eexists. split; [| split].
  - rewrite (@scan_sign_in db now1 t1 ev1 name _ u Ha1 Hcode Hne Hq Happ Hs).
    apply (@readable db u r _ _ Hr).
  - rewrite (@scan_sign_out db1 now2 t2 ev2 name _ u row Ha2 Hcode Hne Hq1
               Happ Hs1).
    apply (@readable db1 u r _ _ Hr).
  - unfold with_tables. cbn [active stamps Stamps.user_id Stamps.event_id
                               Stamps.start Stamps.end_].
    split; [| repeat split].
    unfold db1, with_tables. cbn [active]. now apply filter_fresh_id.
Qed.

Lemma scan_in_then_out_witness :
  constraints open_db = true
  /\ In jane (users open_db)
  /\ User.approved jane = true
  /\ role_of open_db jane = Some student
  /\ canonical_name (lit "Doe, Jane") = Some (User.code jane)
  /\ User.code jane <> []
  /\ sessions_of open_db (User.id jane) = []
  /\ Event.is_active window_event t_10_05 = true
  /\ Event.is_active window_event t_10_20 = true
  /\ exists db1 stamp db2,
       SqliteModel.scan t_10_05 t_10_05 (Some window_event) (lit "Doe, Jane")
                        open_db =
       Ret (Some (StampEvent.mk (lit "Jane Doe") (lit "in"))) db1
       /\ SqliteModel.scan t_10_20 t_10_20 (Some window_event)
                           (lit "Doe, Jane") db1 =
          Ret (Some (StampEvent.mk (lit "Jane Doe")
                                   (lit "out after 0:15:00"))) db2
       /\ active db2 = []
       /\ stamps db2 = [stamp].
Proof.
  assert (H1 : constraints open_db = true) by reflexivity.
  assert (H2 : In jane (users open_db)) by (left; reflexivity).
  assert (H3 : User.approved jane = true) by reflexivity.
  assert (H4 : role_of open_db jane = Some student) by reflexivity.
  assert (H5 : canonical_name (lit "Doe, Jane") = Some (User.code jane))
    by (vm_compute; reflexivity).
  assert (H6 : User.code jane <> []) by (vm_compute; discriminate).
  assert (H7 : sessions_of open_db (User.id jane) = []) by reflexivity.
  assert (H8 : Event.is_active window_event t_10_05 = true) by reflexivity.
  assert (H9 : Event.is_active window_event t_10_20 = true) by reflexivity.
  repeat (split; [assumption |]).
  destruct (@scan_in_then_out open_db t_10_05 t_10_05 t_10_20 t_10_20
              window_event window_event (lit "Doe, Jane") jane student
              H1 H2 H3 H4 H5 H6 H7 H8 H9)
    as (db1 & stamp & db2 & Hin & Hout & Hact & Hst & _).
  exists db1, stamp, db2. repeat split; assumption.
Defined.

(** ** Time totals *)

Lemma sum_elapsed_snoc (l : list Stamps.t) (s : Stamps.t) :
  sum_elapsed (l ++ [s]) = sum_elapsed l + Stamps.elapsed s.
Proof. unfold sum_elapsed. now rewrite fold_left_app. Qed.

Lemma User_stamps_snoc (db : DB) (act : list Active.t) (s : Stamps.t)
  (v : User.t) :
  User_stamps (with_tables db act (stamps db ++ [s])) v =
  User_stamps db v
  ++ (if Stamps.user_id s =? User.id v then [s] else []).
Proof.
  unfold User_stamps, with_tables. cbn [stamps].
  now rewrite filter_app.
Qed.

(** X4: an accepted scan changes the total time of the scanning user only:
    by nothing when it signs the user in, and by the time from the session's
    start to the database's current time when it signs the user out. *)
Theorem scan_adds_elapsed_to_total (db : DB) (now db_now : Z) (ev : Event.t)
  (name : str) (u : User.t) :
  constraints db = true ->
  one_session_per_user db = true ->
  Event.is_active ev now = true ->
  In u (users db) -> User.approved u = true ->
  canonical_name name = Some (User.code u) -> User.code u <> [] ->
  let db' := state_of (SqliteModel.scan now db_now (Some ev) name db) in
  User_total_time db' u =
  User_total_time db u
  + match sessions_of db (User.id u) with
    | [] => 0
    | a :: _ => db_now - Active.start a
    end
  /\ forall v, User.id v <> User.id u ->
               User_total_time db' v = User_total_time db v.
Proof.
  intros Hc H1 Hact Hu Happ Hcode Hne.
  pose proof (@User_filter_by_code_in db u Hc Hu) as Hq.
  destruct (@sessions_of_cases db (User.id u) H1) as [Hs | (a & Ha & Hau & Hs)];
    rewrite Hs.
  - rewrite (@scan_sign_in db now db_now ev name _ u Hact Hcode Hne Hq Happ Hs).
    cbv zeta. rewrite state_of_outcome. unfold User_total_time. split.
    + unfold User_stamps, with_tables. cbn [stamps]. lia.
    + intros v _. reflexivity.
  - rewrite (@scan_sign_out db now db_now ev name _ u a Hact Hcode Hne Hq Happ Hs).
    cbv zeta. rewrite state_of_outcome. unfold User_total_time. split.
    + rewrite User_stamps_snoc. cbn [Stamps.user_id]. rewrite Z.eqb_refl.
      rewrite sum_elapsed_snoc. reflexivity.
    + intros v Hv. rewrite User_stamps_snoc. cbn [Stamps.user_id].
      replace (User.id u =? User.id v) with false
        by (symmetry; apply Z.eqb_neq; congruence).
      now rewrite app_nil_r.
Qed.

Lemma scan_adds_elapsed_to_total_witness :
  constraints signed_in_db = true
  /\ one_session_per_user signed_in_db = true
  /\ Event.is_active window_event t_10_20 = true
  /\ In jane (users signed_in_db)
  /\ User.approved jane = true
  /\ canonical_name (lit "Doe, Jane") = Some (User.code jane)
  /\ User.code jane <> []
  /\ User_total_time
       (state_of (SqliteModel.scan t_10_20 t_10_20 (Some window_event)
                                   (lit "Doe, Jane") signed_in_db)) jane
     = User_total_time signed_in_db jane + (t_10_20 - t_10_05).
Proof.
  assert (H1 : constraints signed_in_db = true) by reflexivity.
  assert (H2 : one_session_per_user signed_in_db = true) by reflexivity.
  assert (H3 : Event.is_active window_event t_10_20 = true) by reflexivity.
  assert (H4 : In jane (users signed_in_db)) by (left; reflexivity).
  assert (H5 : User.approved jane = true) by reflexivity.
  assert (H6 : canonical_name (lit "Doe, Jane") = Some (User.code jane))
    by (vm_compute; reflexivity).
  assert (H7 : User.code jane <> []) by (vm_compute; discriminate).
  repeat (split; [assumption |]).
  exact (proj1 (@scan_adds_elapsed_to_total signed_in_db t_10_20 t_10_20
                  window_event (lit "Doe, Jane") jane H1 H2 H3 H4 H5 H6 H7)).
Defined.

(** ** Stamps of a user by event type *)

Lemma stamps_for_rows (db : DB) (type_ : EventType.t) (rows : list Stamps.t) :
  filterM
    (fun s =>
       ev <- gets (fun db => event_by_id db (Stamps.event_id s)) ;;
       ev <- related ev ;;
       ty <- gets (fun db => event_type_of db ev) ;;
       ret (same_type ty type_ && Event.enabled ev))
    rows db =
  if forallb (has_event db) rows
  then Ret (filter (at_enabled_event_of_type db type_) rows) db
  else Raise AttributeError db.
Proof.
  induction rows as [| s rows IH]; [reflexivity |].
  cbn [filterM forallb filter]. unfold bind at 1. unfold bind at 1.
  unfold gets at 1. unfold has_event at 1. unfold at_enabled_event_of_type at 1.
  destruct (event_by_id db (Stamps.event_id s)) as [e |]; cbn [related andb].
  - unfold bind at 1. unfold ret at 1. unfold bind at 1. unfold gets at 1.
    unfold ret at 1. unfold bind at 1. rewrite IH.
    destruct (forallb (has_event db) rows); [| reflexivity].
    unfold ret.
    destruct (same_type (event_type_of db e) type_ && Event.enabled e);
      reflexivity.
  - reflexivity.
Qed.

(** X5: [stamps_for] raises when one of the user's stamps refers to an
    event that is not in the table, whatever the type asked for; otherwise it
    returns, in table order, the user's stamps at enabled events of that
    type, and leaves the tables alone. *)
Theorem stamps_for_filters_or_raises (db : DB) (self : User.t)
  (type_ : EventType.t) :
  User_stamps_for self type_ db =
  if forallb (has_event db) (User_stamps db self)
  then Ret (filter (at_enabled_event_of_type db type_) (User_stamps db self))
           db
  else Raise AttributeError db.
Proof.
  unfold User_stamps_for. unfold bind at 1. unfold gets at 1.
  apply stamps_for_rows.
Qed.







(** ** Listing the sessions after a scan *)




(** ** Codes are keys *)

Lemma b64_table_class : forallb b64_class b64_table = true.
Proof. vm_compute. reflexivity. Qed.

Lemma b64_digit_class (n : N) : b64_class (b64_digit n) = true.
Proof.
  unfold b64_digit.
  assert (H : (N.to_nat (n mod 64) < List.length b64_table)%nat).
  { change (List.length b64_table) with 64%nat.
    pose proof (N.mod_lt n 64). lia. }
  pose proof b64_table_class as Ht. rewrite forallb_forall in Ht.
  apply Ht. now apply nth_In.
Qed.

Lemma b64encode_shape : forall n bs,
  (List.length bs <= n)%nat -> b64_shape (b64encode bs) = true.
Proof.
  induction n as [| n IH]; intros bs Hn.
  - destruct bs; [reflexivity | simpl in Hn; lia].
  - destruct bs as [| a [| b [| c rest]]]; [reflexivity | | |].
    + cbn [b64encode b64_shape]. rewrite !b64_digit_class. reflexivity.
    + cbn [b64encode b64_shape]. rewrite !b64_digit_class. reflexivity.
    + cbn [b64encode b64_shape]. rewrite !b64_digit_class.
      rewrite IH by (simpl in Hn; lia). reflexivity.
Qed.

Lemma mk_hash_shape (n : str) : b64_shape (mk_hash n) = true.
Proof. unfold mk_hash. now apply (@b64encode_shape _ _ (le_n _)). Qed.

Lemma b64encode_nil (bs : list ascii) : b64encode bs = [] <-> bs = [].
Proof.
  split; [| now intros ->].
  destruct bs as [| a [| b [| c rest]]]; trivial; discriminate.
Qed.

Lemma utf8_char_not_nil (c : ascii) : utf8_char c <> [].
Proof. unfold utf8_char. destruct (N.ltb _ _); discriminate. Qed.

Lemma mk_hash_nil (n : str) : mk_hash n = [] <-> n = [].
Proof.
  unfold mk_hash. rewrite b64encode_nil. split; [| now intros ->].
  destruct n as [| c n]; trivial. simpl. intros H.
  apply app_eq_nil in H. destruct H as [H _].
  now apply utf8_char_not_nil in H.
Qed.

(** X12: the code [mk_hash] gives a name is a key that [canonical_name]
    returns unchanged, and that [scan] takes for a key unless the name is
    empty: a user's code scans as itself. *)
Theorem canonical_name_of_code (n : str) :
  canonical_name (mk_hash n) = Some (mk_hash n)
  /\ (truthy (canonical_name (mk_hash n)) = true <-> n <> []).
Proof.
  pose proof (@canonical_name_b64 (mk_hash n) (mk_hash_shape n)) as H.
  split; [exact H |]. rewrite H.
  pose proof (mk_hash_nil n) as Hn.
  destruct (mk_hash n) as [| c k]; simpl; split; intros H1.
  - discriminate.
  - exfalso. apply H1. now apply Hn.
  - intros ->. destruct Hn as [_ Hn]. specialize (Hn eq_refl). discriminate.
  - reflexivity.
Qed.

Lemma nl_not_digit : b64_class nl = false.
Proof. reflexivity. Qed.

Lemma hash_tail_nl (w : str) (caps : captures) :
  hash_tail w [nl] caps = Some caps.
Proof. reflexivity. Qed.

Lemma hash_tail_pad1_nl (w : str) (a b c d : ascii) (caps : captures) :
  b64_class a = true -> b64_class b = true -> b64_class c = true ->
  is_char "=" d = true ->
  hash_tail w [a; b; c; d; nl] caps = Some caps.
Proof.
  intros Ha Hb Hc Hd. unfold hash_tail. simpl. rewrite Ha, Hb, Hc.
  simpl in *. rewrite Hd. reflexivity.
Qed.

Lemma hash_tail_pad2_nl (w : str) (a b c d : ascii) (caps : captures) :
  b64_class a = true -> b64_class b = true -> is_char "=" c = true ->
  is_char "=" d = true ->
  hash_tail w [a; b; c; d; nl] caps = Some caps.
Proof.
  intros Ha Hb Hc Hd. unfold hash_tail. simpl.
  rewrite Ha, Hb, (pad_not_digit _ Hc). simpl in *. rewrite Hc, Hd.
  reflexivity.
Qed.

Lemma star_quads_nl (w : str) :
  forall n s caps,
    b64_shape s = true -> (List.length (s ++ [nl]) <= n)%nat ->
    star_loop (mt (b64_times 4) w) (hash_tail w) n (s ++ [nl]) caps
    = Some caps.
Proof.
  induction n as [| n IH]; intros s caps Hs Hn.
  - destruct s; simpl in Hn; lia.
  - rewrite star_loop_S, quad_match.
    destruct s as [| a [| b [| c [| d rest]]]]; try discriminate.
    + reflexivity.
    + cbn [app]. simpl in Hs.
      destruct (b64_class a) eqn:Ha; [| discriminate].
      destruct (b64_class b) eqn:Hb; [| discriminate]. simpl in Hs.
      destruct (b64_class c) eqn:Hc; simpl in Hs.
      * destruct (b64_class d) eqn:Hd; simpl in Hs.
        -- simpl andb. cbv iota.
           replace (Nat.ltb (List.length (rest ++ [nl]))
                            (List.length (a :: b :: c :: d :: rest ++ [nl])))
             with true by (symmetry; apply Nat.ltb_lt; simpl; lia).
           rewrite IH; trivial.
           ++ assert (E : is_char "=" d = false).
              { destruct (is_char "=" d) eqn:E; trivial.
                rewrite (pad_not_digit _ E) in Hd. discriminate. }
              rewrite E, !andb_false_r in Hs. simpl in Hs.
              now rewrite orb_false_r in Hs.
           ++ simpl in Hn. lia.
        -- simpl andb. cbv iota.
           destruct rest; simpl in Hs; try discriminate.
           destruct (is_char "=" d) eqn:E.
           ++ now apply hash_tail_pad1_nl.
           ++ simpl in Hs. rewrite andb_false_r in Hs. discriminate.
      * simpl andb. cbv iota.
        destruct rest; simpl in Hs; try discriminate.
        apply andb_true_iff in Hs. destruct Hs.
        now apply hash_tail_pad2_nl.
Qed.

Lemma re_match_HASH_RE_nl (s : str) :
  b64_shape s = true -> re_match HASH_RE (s ++ [nl]) = Some [].
Proof.
  intros H. unfold re_match, HASH_RE.
  change (mt Bos (s ++ [nl]) (s ++ [nl]) []
             (fun s1 c1 =>
                star_loop (mt (b64_times 4) (s ++ [nl])) (hash_tail (s ++ [nl]))
                          (List.length s1) s1 c1) = Some []).
  simpl. rewrite Nat.eqb_refl. now apply star_quads_nl.
Qed.

Lemma b64_shape_no_comma (s : str) :
  b64_shape s = true -> ~ In ","%char s.
Proof.
  intros Hs E.
  destruct (@b64_shape_chars _ s (le_n _) Hs _ E) as [H | H];
    vm_compute in H; discriminate.
Qed.

Lemma b64_shape_no_nl (s : str) :
  b64_shape s = true -> ~ In nl s.
Proof.
  intros Hs E.
  destruct (@b64_shape_chars _ s (le_n _) Hs _ E) as [H | H];
    vm_compute in H; discriminate.
Qed.

(** X13: a key followed by a newline is accepted by [canonical_name], the
    end-of-string anchor matching before a last newline, and comes back with
    the newline in it; it is the hash of no name, so no user registered under
    the hash of a name has it as code. *)
Theorem canonical_name_trailing_newline (s : str) :
  b64_shape s = true ->
  canonical_name (s ++ [nl]) = Some (s ++ [nl])
  /\ forall n, mk_hash n <> s ++ [nl].
Proof.
  intros Hs. split.
  - unfold canonical_name.
    destruct (re_match NAME_RE (s ++ [nl])) as [m |] eqn:E.
    + apply NAME_RE_needs_comma in E. apply in_app_iff in E.
      destruct E as [E | [E | []]]; [| discriminate].
      now apply b64_shape_no_comma in E.
    + now rewrite (@re_match_HASH_RE_nl s Hs).
  - intros n E.
    apply (@b64_shape_no_nl (mk_hash n) (mk_hash_shape n)).
    rewrite E. apply in_app_iff. right. now left.
Qed.

Lemma canonical_name_trailing_newline_witness :
  b64_shape (lit "John") = true
  /\ canonical_name (lit "John" ++ [nl]) = Some (lit "John" ++ [nl]).
Proof.
  assert (H : b64_shape (lit "John") = true) by reflexivity.
  split; [exact H |].
  exact (proj1 (@canonical_name_trailing_newline (lit "John") H)).
Defined.

(** ** The key of a well-formed name *)

Lemma mt_Group (name : string) (r : regex) (w s : str) (c : captures)
  (k : cont) :
  mt (Group name r) w s c k =
  mt r w s c
     (fun s1 c1 =>
        k s1 ((name, firstn (List.length s - List.length s1) s) :: c1)).
Proof. reflexivity. Qed.

Lemma mt_Chr_cons (p : ascii -> bool) (w : str) (x : ascii) (s : str)
  (c : captures) (k : cont) :
  mt (Chr p) w (x :: s) c k = if p x then k s c else None.
Proof. reflexivity. Qed.

Lemma mt_Star (r : regex) (w s : str) (c : captures) (k : cont) :
  mt (Star r) w s c k = star_loop (mt r w) k (List.length s) s c.
Proof. reflexivity. Qed.

Lemma mt_Plus (r : regex) (w s : str) (c : captures) (k : cont) :
  mt (Plus r) w s c k = mt r w s c (fun s1 c1 => mt (Star r) w s1 c1 k).
Proof. reflexivity. Qed.

Lemma star_class_greedy (p : ascii -> bool) (w : str) (k : cont)
  (v : str) (m : captures) :
  stops p v ->
  forall u n c,
    forallb p u = true -> (List.length (u ++ v) <= n)%nat ->
    k v c = Some m ->
    star_loop (mt (Chr p) w) k n (u ++ v) c = Some m.
Proof.
  intros Hv. induction u as [| x u IH]; intros n c Hu Hn Hk.
  - cbn [app]. destruct n as [| n]; [exact Hk |].
    rewrite star_loop_S. destruct v as [| y v]; [exact Hk |].
    rewrite mt_Chr_cons. simpl in Hv. now rewrite Hv.
  - destruct n as [| n]; [simpl in Hn; lia |].
    cbn [forallb] in Hu. apply andb_true_iff in Hu. destruct Hu as [Hx Hu].
    cbn [app]. rewrite star_loop_S, mt_Chr_cons, Hx.
    replace (Nat.ltb (List.length (u ++ v)) (List.length (x :: u ++ v)))
      with true by (symmetry; apply Nat.ltb_lt; simpl; lia).
    rewrite (IH n c Hu); [reflexivity | simpl in Hn; lia | exact Hk].
Qed.

Lemma firstn_app_exact {A} (a b : list A) :
  firstn (List.length (a ++ b) - List.length b) (a ++ b) = a.
Proof.
  rewrite length_app, Nat.add_sub.
  rewrite firstn_app, Nat.sub_diag, firstn_all. simpl. apply app_nil_r.
Qed.

Lemma group_class_greedy (name : string) (p : ascii -> bool) (w : str)
  (k : cont) (u v : str) (c m : captures) :
  u <> [] -> forallb p u = true -> stops p v ->
  k v ((name, u) :: c) = Some m ->
  mt (Group name (Plus (Chr p))) w (u ++ v) c k = Some m.
Proof.
  intros Hne Hu Hv Hk. destruct u as [| x u]; [congruence |].
  cbn [forallb] in Hu. apply andb_true_iff in Hu. destruct Hu as [Hx Hu].
  rewrite mt_Group, mt_Plus. cbn [app]. rewrite mt_Chr_cons, Hx, mt_Star.
  apply star_class_greedy; trivial.
  change (x :: u ++ v) with ((x :: u) ++ v). now rewrite firstn_app_exact.
Qed.

Lemma ignorecase_holds (p : ascii -> bool) (s : str) :
  forallb p s = true -> forallb (ignorecase p) s = true.
Proof.
  induction s as [| x s IH]; simpl; trivial. intros H.
  apply andb_true_iff in H. destruct H as [Hx Hs].
  unfold ignorecase at 1. now rewrite Hx, IH.
Qed.

Lemma name_char_not_space (x : ascii) :
  name_class x = true -> is_char " " x = false ->
  ignorecase is_space x = false /\ ignorecase space_or_hyphen x = false.
Proof.
  destruct x as [[] [] [] [] [] [] [] []]; vm_compute; intros H1 H2;
    try discriminate; split; reflexivity.
Qed.

Lemma no_leading_space_stops (s : str) :
  forallb name_class s = true -> no_leading_space s = true ->
  s <> [] /\ stops (ignorecase is_space) s
  /\ stops (ignorecase space_or_hyphen) s.
Proof.
  destruct s as [| x s]; [discriminate |]. cbn [forallb no_leading_space stops].
  intros H Hx. apply andb_true_iff in H. destruct H as [Hn _].
  apply negb_true_iff in Hx.
  split; [discriminate |]. now apply name_char_not_space.
Qed.

Lemma name_tail_match (w last ws first : str) (c : captures) :
  forallb name_class last = true -> last <> [] ->
  forallb is_space ws = true ->
  forallb name_class first = true -> no_leading_space first = true ->
  mt NAME_TAIL w (last ++ ","%char :: ws ++ first) c final
  = Some (("first"%string, first) :: ("last"%string, last) :: c).
Proof.
  intros Hl Hne Hws Hf Hx.
  destruct (no_leading_space_stops first Hf Hx) as (Hfne & Hstop & _).
  unfold NAME_TAIL. rewrite mt_Seq.
  apply group_class_greedy; trivial; [now apply ignorecase_holds | reflexivity |].
  rewrite mt_Seq, mt_Chr_cons.
  change (ignorecase_lit "," ",") with true. cbv iota.
  rewrite mt_Seq, mt_Star.
  apply star_class_greedy; trivial; [now apply ignorecase_holds |].
  rewrite mt_Seq. rewrite <- (app_nil_r first) at 1.
  apply group_class_greedy; trivial; [now apply ignorecase_holds | exact I].
Qed.

Lemma NAME_RE_parts (s : str) :
  re_match NAME_RE s =
  mt MENTOR s s [] (fun s1 c1 => mt NAME_TAIL s s1 c1 final).
Proof.
  unfold re_match, NAME_RE. rewrite mt_Seq. cbn [mt].
  now rewrite Nat.eqb_refl.
Qed.

Lemma mentor_word (a b c d e f : ascii) :
  starts_with_mentor [a; b; c; d; e; f] =
  ignorecase_lit "m" a && (ignorecase_lit "e" b && (ignorecase_lit "n" c
  && (ignorecase_lit "t" d && (ignorecase_lit "o" e
  && (ignorecase_lit "r" f && true))))).
Proof. reflexivity. Qed.

Lemma mentor_absent (w s : str) (c : captures) (k : cont) :
  starts_with_mentor s = false -> mt MENTOR w s c k = k s c.
Proof.
  intros H. unfold MENTOR. cbn [mt].
  destruct s as [| a [| b [| x [| d [| e [| f s]]]]]];
    try (cbn; repeat match goal with
                     | |- context [if ?b then _ else _] => destruct b
                     end; reflexivity).
  assert (H' : starts_with_mentor [a; b; x; d; e; f] = false) by exact H.
  rewrite mentor_word in H'. cbn [Lit lit list_ascii_of_string mt].
  destruct (ignorecase_lit "m" a); [| reflexivity].
  destruct (ignorecase_lit "e" b); [| reflexivity].
  destruct (ignorecase_lit "n" x); [| reflexivity].
  destruct (ignorecase_lit "t" d); [| reflexivity].
  destruct (ignorecase_lit "o" e); [| reflexivity].
  destruct (ignorecase_lit "r" f); [discriminate | reflexivity].
Qed.

Lemma mentor_present (w m sep rest : str) (c r : captures) (k : cont) :
  List.length m = 6%nat -> starts_with_mentor m = true ->
  forallb space_or_hyphen sep = true ->
  stops (ignorecase space_or_hyphen) rest ->
  k rest (("mentor"%string, m ++ sep) :: c) = Some r ->
  mt MENTOR w (m ++ sep ++ rest) c k = Some r.
Proof.
  intros Hlen Hm Hsep Hstop Hk.
  destruct m as [| a [| b [| x [| d [| e [| f [| g m]]]]]]]; try discriminate.
  rewrite mentor_word in Hm.
  repeat (apply andb_true_iff in Hm; destruct Hm as [? Hm]).
  unfold MENTOR. cbn [mt Lit lit list_ascii_of_string app].
  repeat match goal with H : ignorecase_lit _ _ = true |- _ =>
           rewrite H; clear H end.
  cbv iota.
  erewrite (@star_class_greedy (ignorecase space_or_hyphen) w _ rest r Hstop
              sep); [reflexivity | now apply ignorecase_holds | apply le_n |].
  cbv beta.
  replace (firstn _ _) with ([a; b; x; d; e; f] ++ sep); [exact Hk |].
  symmetry. exact (firstn_app_exact ([a; b; x; d; e; f] ++ sep) rest).
Qed.

Lemma key_of_match (s first last : str) (rest : captures) :
  re_match NAME_RE s
  = Some (("first"%string, first) :: ("last"%string, last) :: rest) ->
  canonical_name s = Some (mk_hash (first ++ lit " " ++ last)).
Proof. unfold canonical_name. now intros ->. Qed.

Lemma no_mentor_before_comma (last rest : str) :
  starts_with_mentor last = false ->
  starts_with_mentor (last ++ ","%char :: rest) = false.
Proof.
  intros Hm.
  destruct last as [| a [| b [| c [| d [| e [| f l]]]]]];
    try exact Hm;
    unfold starts_with_mentor; cbn;
    repeat (match goal with
            | |- context [Ascii.eqb (lower_char ?a) ?m] =>
                destruct (Ascii.eqb (lower_char a) m)
            end; cbn);
    reflexivity.
Qed.

(** X14: a name written last name, comma, white space, first name, both
    made of letters, spaces and apostrophes, the last name not starting with
    the word mentor and the first name not starting with a space, gets the
    hash of the first name, a space and the last name. *)
Theorem canonical_name_last_first (last ws first : str) :
  forallb name_class last = true -> last <> [] ->
  starts_with_mentor last = false ->
  forallb is_space ws = true ->
  forallb name_class first = true -> no_leading_space first = true ->
  canonical_name (last ++ ","%char :: ws ++ first)
  = Some (mk_hash (first ++ lit " " ++ last)).
Proof.
  intros Hl Hne Hm Hws Hf Hx.
  apply key_of_match with (rest := []).
  rewrite NAME_RE_parts, mentor_absent.
  - now apply name_tail_match.
  - now apply no_mentor_before_comma.
Qed.

Lemma canonical_name_last_first_witness :
  forallb name_class (lit "Doe") = true
  /\ lit "Doe" <> []
  /\ starts_with_mentor (lit "Doe") = false
  /\ forallb is_space (lit " ") = true
  /\ forallb name_class (lit "Jane") = true
  /\ no_leading_space (lit "Jane") = true
  /\ canonical_name (lit "Doe, Jane") = Some (mk_hash (lit "Jane Doe")).
Proof.
  assert (H1 : forallb name_class (lit "Doe") = true) by reflexivity.
  assert (H2 : lit "Doe" <> []) by (vm_compute; discriminate).
  assert (H3 : starts_with_mentor (lit "Doe") = false) by reflexivity.
  assert (H4 : forallb is_space (lit " ") = true) by reflexivity.
  assert (H5 : forallb name_class (lit "Jane") = true) by reflexivity.
  assert (H6 : no_leading_space (lit "Jane") = true) by reflexivity.
  repeat (split; [assumption |]).
  exact (@canonical_name_last_first (lit "Doe") (lit " ") (lit "Jane")
           H1 H2 H3 H4 H5 H6).
Defined.

(** X15: the word mentor, in any letter case, with spaces and hyphens after
    it, is dropped from the front of a name before the key is made; so are
    the first six letters of a last name that begins with that word. *)
Theorem canonical_name_mentor_prefix (m sep last ws first : str) :
  List.length m = 6%nat -> starts_with_mentor m = true ->
  forallb space_or_hyphen sep = true ->
  forallb name_class last = true -> no_leading_space last = true ->
  forallb is_space ws = true ->
  forallb name_class first = true -> no_leading_space first = true ->
  canonical_name (m ++ sep ++ last ++ ","%char :: ws ++ first)
  = Some (mk_hash (first ++ lit " " ++ last)).
Proof.
  intros Hlen Hm Hsep Hl Hy Hws Hf Hx.
  destruct (no_leading_space_stops last Hl Hy) as (Hne & _ & Hstop).
  apply key_of_match with (rest := [("mentor"%string, m ++ sep)]).
  rewrite NAME_RE_parts.
  apply mentor_present; trivial.
  - destruct last as [| y l]; [congruence |]. exact Hstop.
  - now apply name_tail_match.
Qed.

Lemma canonical_name_mentor_prefix_witness :
  List.length (lit "Mentor") = 6%nat
  /\ starts_with_mentor (lit "Mentor") = true
  /\ forallb space_or_hyphen [] = true
  /\ forallb name_class (lit "son") = true
  /\ no_leading_space (lit "son") = true
  /\ forallb is_space (lit " ") = true
  /\ forallb name_class (lit "Al") = true
  /\ no_leading_space (lit "Al") = true
  /\ canonical_name (lit "Mentorson, Al") = Some (mk_hash (lit "Al son")).
Proof.
  assert (H1 : List.length (lit "Mentor") = 6%nat) by reflexivity.
  assert (H2 : starts_with_mentor (lit "Mentor") = true) by reflexivity.
  assert (H3 : forallb space_or_hyphen [] = true) by reflexivity.
  assert (H4 : forallb name_class (lit "son") = true) by reflexivity.
  assert (H5 : no_leading_space (lit "son") = true) by reflexivity.
  assert (H6 : forallb is_space (lit " ") = true) by reflexivity.
  assert (H7 : forallb name_class (lit "Al") = true) by reflexivity.
  assert (H8 : no_leading_space (lit "Al") = true) by reflexivity.
  repeat (split; [assumption |]).
  exact (@canonical_name_mentor_prefix (lit "Mentor") [] (lit "son")
           (lit " ") (lit "Al") H1 H2 H3 H4 H5 H6 H7 H8).
Defined.

(** ** Codes tell names apart *)

Local Open Scope N_scope.

Lemma utf8_first_char (c : ascii) (r : list ascii) :
  utf8_first (utf8_char c ++ r) = Some (c, r).
Proof. destruct c as [[] [] [] [] [] [] [] []]; reflexivity. Qed.

Lemma encode_utf8_inj (s s' : str) :
  encode_utf8 s = encode_utf8 s' -> s = s'.
Proof.
  revert s'. induction s as [| c s IH]; intros [| c' s'] H; trivial.
  - simpl in H. apply (f_equal utf8_first) in H.
    rewrite utf8_first_char in H. discriminate.
  - simpl in H. apply (f_equal utf8_first) in H.
    rewrite utf8_first_char in H. discriminate.
  - simpl in H. apply (f_equal utf8_first) in H.
    rewrite !utf8_first_char in H. injection H as -> H. f_equal. now apply IH.
Qed.

Lemma b64_index_table :
  forallb (fun k => N.eqb (b64_index (nth k b64_table "="%char)) (N.of_nat k))
          (seq 0 64) = true.
Proof. vm_compute. reflexivity. Qed.

Lemma b64_index_digit (n : N) : b64_index (b64_digit n) = n mod 64.
Proof.
  unfold b64_digit. pose proof b64_index_table as H.
  rewrite forallb_forall in H.
  specialize (H (N.to_nat (n mod 64))).
  rewrite N2Nat.id in H. apply N.eqb_eq. apply H.
  apply in_seq. assert (n mod 64 < 64) by (apply N.mod_lt; discriminate).
  generalize dependent (n mod 64). intros k _ Hk. lia.
Qed.

Lemma b64_digit_inj (n n' : N) :
  b64_digit n = b64_digit n' -> n mod 64 = n' mod 64.
Proof.
  intros H. apply (f_equal b64_index) in H. now rewrite !b64_index_digit in H.
Qed.

Lemma b64_digit_not_pad (n : N) : b64_digit n <> "="%char.
Proof.
  intros H. pose proof (b64_digit_class n) as Hc. rewrite H in Hc.
  discriminate.
Qed.

Lemma ord_lt (a : ascii) : ord a < 256.
Proof. apply N_ascii_bounded. Qed.

Lemma ord_inj (a b : ascii) : ord a = ord b -> a = b.
Proof.
  intros H. apply (f_equal chr) in H. unfold chr, ord in H.
  now rewrite !ascii_N_embedding in H.
Qed.

Lemma step64 (n n' : N) :
  n / 64 = n' / 64 -> n mod 64 = n' mod 64 -> n = n'.
Proof.
  intros Hq Hr. rewrite (N.div_mod' n 64), (N.div_mod' n' 64). now rewrite Hq, Hr.
Qed.

Lemma digits_inj (n n' : N) :
  n < 16777216 -> n' < 16777216 ->
  (n / 262144) mod 64 = (n' / 262144) mod 64 ->
  (n / 4096) mod 64 = (n' / 4096) mod 64 ->
  (n / 64) mod 64 = (n' / 64) mod 64 ->
  n mod 64 = n' mod 64 ->
  n = n'.
Proof.
  intros Hn Hn' H1 H2 H3 H4.
  apply step64; trivial. apply step64; trivial.
  rewrite !N.Div0.div_div. change (64 * 64) with 4096.
  apply step64; trivial.
  rewrite !N.Div0.div_div. change (4096 * 64) with 262144.
  rewrite !N.mod_small in H1; trivial.
  - apply N.div_lt_upper_bound; [discriminate | exact Hn'].
  - apply N.div_lt_upper_bound; [discriminate | exact Hn].
Qed.

Lemma group3_inj (a b c a' b' c' : ascii) :
  ((ord a * 65536 + ord b * 256 + ord c) / 262144) mod 64 = ((ord a' * 65536 + ord b' * 256 + ord c') / 262144) mod 64 ->
  ((ord a * 65536 + ord b * 256 + ord c) / 4096) mod 64 = ((ord a' * 65536 + ord b' * 256 + ord c') / 4096) mod 64 ->
  ((ord a * 65536 + ord b * 256 + ord c) / 64) mod 64 = ((ord a' * 65536 + ord b' * 256 + ord c') / 64) mod 64 ->
  ((ord a * 65536 + ord b * 256 + ord c)) mod 64 = ((ord a' * 65536 + ord b' * 256 + ord c')) mod 64 ->
  a = a' /\ b = b' /\ c = c'.
Proof.
  intros H1 H2 H3 H4.
  pose proof (ord_lt a). pose proof (ord_lt b). pose proof (ord_lt c).
  pose proof (ord_lt a'). pose proof (ord_lt b'). pose proof (ord_lt c').
  assert (E : ord a * 65536 + ord b * 256 + ord c
              = ord a' * 65536 + ord b' * 256 + ord c')
    by (apply digits_inj; trivial; lia).
  assert (HH : ord a = ord a' /\ ord b = ord b' /\ ord c = ord c') by lia.
  destruct HH as (Ha & Hb & Hc). repeat split; now apply ord_inj.
Qed.

Lemma mod_64_of_256 (x y : N) : (x * 65536 + y * 256) mod 64 = 0.
Proof.
  replace (x * 65536 + y * 256) with ((x * 1024 + y * 4) * 64) by lia.
  apply N.Div0.mod_mul.
Qed.

Lemma group2_inj (a b a' b' : ascii) :
  ((ord a * 65536 + ord b * 256) / 262144) mod 64 = ((ord a' * 65536 + ord b' * 256) / 262144) mod 64 ->
  ((ord a * 65536 + ord b * 256) / 4096) mod 64 = ((ord a' * 65536 + ord b' * 256) / 4096) mod 64 ->
  ((ord a * 65536 + ord b * 256) / 64) mod 64 = ((ord a' * 65536 + ord b' * 256) / 64) mod 64 ->
  a = a' /\ b = b'.
Proof.
  intros H1 H2 H3.
  assert (HH : a = a' /\ b = b' /\ zero = zero).
  { apply group3_inj; change (ord zero) with 0; rewrite !N.add_0_r; trivial.
    now rewrite !mod_64_of_256. }
  destruct HH as (Ha & Hb & _). now split.
Qed.

Lemma group1_inj (a a' : ascii) :
  ((ord a * 65536) / 262144) mod 64 = ((ord a' * 65536) / 262144) mod 64 ->
  ((ord a * 65536) / 4096) mod 64 = ((ord a' * 65536) / 4096) mod 64 ->
  a = a'.
Proof.
  intros H1 H2.
  assert (E : forall x, ord x * 65536 = ord x * 65536 + ord zero * 256)
    by (intros x; change (ord zero) with 0; lia).
  rewrite (E a), (E a') in H1, H2.
  assert (HH : a = a' /\ zero = zero); [| now destruct HH].
  apply group2_inj; trivial.
  assert (Z0 : forall x, ((ord x * 65536 + ord zero * 256) / 64) mod 64 = 0).
  { intros x. change (ord zero) with 0.
    replace (ord x * 65536 + 0 * 256) with (ord x * 16 * 64 * 64) by lia.
    rewrite N.div_mul by discriminate. apply N.Div0.mod_mul. }
  now rewrite !Z0.
Qed.

Ltac no_pad :=
  match goal with
  | H : b64_digit _ = "="%char |- _ => now apply b64_digit_not_pad in H
  | H : "="%char = b64_digit _ |- _ =>
      symmetry in H; now apply b64_digit_not_pad in H
  end.

Lemma b64encode_inj : forall n bs bs',
  (List.length bs <= n)%nat -> b64encode bs = b64encode bs' -> bs = bs'.
Proof.
  induction n as [| n IH]; intros bs bs' Hn H.
  - destruct bs; [| simpl in Hn; lia].
    destruct bs' as [| a [| b [| c rest]]]; trivial; discriminate.
  - destruct bs as [| a [| b [| c rest]]];
      destruct bs' as [| a' [| b' [| c' rest']]];
      trivial; try discriminate;
      cbn [b64encode] in H; cbv zeta in H; injection H; intros;
      try no_pad.
    + f_equal. apply group1_inj; now apply b64_digit_inj.
    + assert (HH : a = a' /\ b = b')
        by (apply group2_inj; now apply b64_digit_inj).
      now destruct HH as [-> ->].
    + assert (HH : a = a' /\ b = b' /\ c = c')
        by (apply group3_inj; now apply b64_digit_inj).
      destruct HH as (-> & -> & ->). do 3 f_equal.
      apply (IH rest rest'); [simpl in Hn; lia | assumption].
Qed.

Lemma mk_hash_inj (a b : str) : mk_hash a = mk_hash b -> lower a = lower b.
Proof.
  unfold mk_hash. intros H.
  apply (@b64encode_inj _ _ _ (le_n _)) in H.
  now apply encode_utf8_inj.
Qed.

(** X16: two names get the same code exactly when they are equal up to the
    case of their letters; names that differ otherwise never share a code. *)
Theorem mk_hash_same_iff (a b : str) :
  mk_hash a = mk_hash b <-> lower a = lower b.
Proof. split; [apply mk_hash_inj | apply mk_hash_case]. Qed.

Local Close Scope N_scope.

(** ** Registered users are found *)

(** X17: [get_canonical] finds a user registered under the hash of the
    user's name whatever the letter case of the name asked for. *)
Theorem get_canonical_ignores_case (db : DB) (u : User.t) (n : str) :
  constraints db = true ->
  In u (users db) -> User.code u = mk_hash (User.name u) ->
  lower n = lower (User.name u) ->
  User_get_canonical n db = Ret (Some u) db.
Proof.
  intros Hc Hu Hcode Hn. unfold User_get_canonical, bind, gets.
  rewrite (mk_hash_case _ _ Hn), <- Hcode.
  now rewrite (@User_filter_by_code_in db u Hc Hu).
Qed.

Lemma get_canonical_ignores_case_witness :
  constraints open_db = true
  /\ In jane (users open_db)
  /\ User.code jane = mk_hash (User.name jane)
  /\ lower (lit "JANE DOE") = lower (User.name jane)
  /\ User_get_canonical (lit "JANE DOE") open_db = Ret (Some jane) open_db.
Proof.
  assert (H1 : constraints open_db = true) by reflexivity.
  assert (H2 : In jane (users open_db)) by (left; reflexivity).
  assert (H3 : User.code jane = mk_hash (User.name jane))
    by (vm_compute; reflexivity).
  assert (H4 : lower (lit "JANE DOE") = lower (User.name jane))
    by (vm_compute; reflexivity).
  repeat (split; [assumption |]).
  exact (@get_canonical_ignores_case open_db jane (lit "JANE DOE")
           H1 H2 H3 H4).
Defined.

(** X18: when every user is registered under the hash of the user's name,
    [get_canonical] returns nothing for a name that is, up to letter case,
    the name of no user. *)
Theorem get_canonical_unknown (db : DB) (n : str) :
  forallb (fun u => str_eqb (User.code u) (mk_hash (User.name u))) (users db)
  = true ->
  (forall u, In u (users db) -> lower (User.name u) <> lower n) ->
  User_get_canonical n db = Ret None db.
Proof.
  intros Hmade Hn. unfold User_get_canonical, bind, gets.
  replace (User_filter_by_code (mk_hash n) db) with (@nil User.t);
    [reflexivity |].
  symmetry. unfold User_filter_by_code.
  rewrite forallb_forall in Hmade.
  assert (H : forall l, (forall u, In u l -> In u (users db)) ->
              filter (fun u => str_eqb (User.code u) (mk_hash n)) l = []).
  { induction l as [| x l IH]; intros Hl; simpl; trivial.
    destruct (str_eqb (User.code x) (mk_hash n)) eqn:E.
    - exfalso. apply str_eqb_eq in E.
      pose proof (Hmade x (Hl x (or_introl eq_refl))) as Hx.
      apply str_eqb_eq in Hx. rewrite Hx in E. apply mk_hash_inj in E.
      exact (Hn x (Hl x (or_introl eq_refl)) E).
    - apply IH. intros u Hin. apply Hl. now right. }
  apply H. auto.
Qed.

Lemma get_canonical_unknown_witness :
  forallb (fun u => str_eqb (User.code u) (mk_hash (User.name u)))
          (users open_db) = true
  /\ (forall u, In u (users open_db) ->
                lower (User.name u) <> lower (lit "John Smith"))
  /\ User_get_canonical (lit "John Smith") open_db = Ret None open_db.
Proof.
  assert (H1 : forallb (fun u => str_eqb (User.code u)
                                  (mk_hash (User.name u)))
                       (users open_db) = true)
    by (vm_compute; reflexivity).
  assert (H2 : forall u, In u (users open_db) ->
                 lower (User.name u) <> lower (lit "John Smith"))
    by (intros u [<- | []]; vm_compute; discriminate).
  split; [exact H1 | split; [exact H2 |]].
  exact (@get_canonical_unknown open_db (lit "John Smith") H1 H2).
Defined.

(** X19: on tables that meet the schema's constraints, take a user that
    [User.make] registered as approved, with a role of the table, under a
    name equal, up to letter case, to first name, space, last name, and who
    has no session.  When the last name is not empty, is made of ASCII
    letters, spaces and apostrophes and does not start with the word mentor
    in any letter case, and the first name is made of the same characters
    and does not start with a space, a scan of last name, comma, any white
    space, first name at an active event signs the user in; the outcome
    carries the registered name, with a star in front for a mentor. *)
Theorem scan_finds_registered_user (db : DB) (id : Z) (n : str) (role : Role.t)
  (subteam : option Subteam.t) (last ws first : str) (now db_now : Z)
  (ev : Event.t) :
  constraints db = true ->
  In (User_make id n role subteam true) (users db) ->
  In role (roles db) ->
  forallb name_class last = true -> last <> [] ->
  starts_with_mentor last = false ->
  forallb is_space ws = true ->
  forallb name_class first = true -> no_leading_space first = true ->
  lower n = lower (first ++ lit " " ++ last) ->
  sessions_of db id = [] ->
  Event.is_active ev now = true ->
  exists db',
    SqliteModel.scan now db_now (Some ev) (last ++ ","%char :: ws ++ first) db
    = Ret (Some (StampEvent.mk
                   ((if Role.mentor role then lit "*" else []) ++ n)
                   (lit "in")))
          db'
    /\ sessions_of db' id <> [].
Proof.
  intros Hc Hu Hrole Hl Hne Hm Hws Hf Hx Hn Hs Hact.
  set (u := User_make id n role subteam true) in *.
  assert (Hkey : canonical_name (last ++ ","%char :: ws ++ first)
                 = Some (User.code u)).
  { cbn [u User_make User.code]. rewrite (mk_hash_case _ _ Hn).
    apply key_of_match with (rest := []).
    rewrite NAME_RE_parts, mentor_absent.
    - now apply name_tail_match.
    - now apply no_mentor_before_comma. }
  assert (Hcode : User.code u <> []).
  { cbn [u User_make User.code]. intros E.
    destruct (mk_hash_nil n) as [HH _]. rewrite (HH E) in Hn.
    destruct first; simpl in Hn; discriminate. }
  assert (Hr : role_of db u = Some role).
  { unfold role_of. cbn [u User_make User.role_id].
    apply find_unique_key; trivial.
    unfold constraints in Hc.
    repeat (apply andb_true_iff in Hc; destruct Hc as [Hc ?]). assumption. }
  pose proof (@User_filter_by_code_in db u Hc Hu) as Hq.
  eexists. split.
  - rewrite (@scan_sign_in db now db_now ev _ _ u Hact Hkey Hcode Hq eq_refl Hs).
    apply (@readable db u role _ _ Hr).
  - unfold sessions_of, with_tables. cbn [active].
    rewrite filter_app. cbn [filter Active.user_id u User_make User.id].
    rewrite Z.eqb_refl. intros E. apply app_eq_nil in E. destruct E; discriminate.
Qed.

Lemma scan_finds_registered_user_witness :
  constraints open_db = true
  /\ In (User_make 1 (lit "Jane Doe") student None true) (users open_db)
  /\ In student (roles open_db)
  /\ forallb name_class (lit "DOE") = true
  /\ lit "DOE" <> []
  /\ starts_with_mentor (lit "DOE") = false
  /\ forallb is_space (lit " ") = true
  /\ forallb name_class (lit "JANE") = true
  /\ no_leading_space (lit "JANE") = true
  /\ lower (lit "Jane Doe") = lower (lit "JANE" ++ lit " " ++ lit "DOE")
  /\ sessions_of open_db 1 = []
  /\ Event.is_active window_event t_10_05 = true
  /\ exists db',
       SqliteModel.scan t_10_05 t_10_05 (Some window_event) (lit "DOE, JANE")
                        open_db
       = Ret (Some (StampEvent.mk (lit "Jane Doe") (lit "in"))) db'.
Proof.
  assert (H1 : constraints open_db = true) by reflexivity.
  assert (H2 : In (User_make 1 (lit "Jane Doe") student None true)
                  (users open_db)) by (left; vm_compute; reflexivity).
  assert (H3 : In student (roles open_db)) by (left; reflexivity).
  assert (H4 : forallb name_class (lit "DOE") = true) by reflexivity.
  assert (H5 : lit "DOE" <> []) by (vm_compute; discriminate).
  assert (H6 : starts_with_mentor (lit "DOE") = false) by reflexivity.
  assert (H7 : forallb is_space (lit " ") = true) by reflexivity.
  assert (H8 : forallb name_class (lit "JANE") = true) by reflexivity.
  assert (H9 : no_leading_space (lit "JANE") = true) by reflexivity.
  assert (H10 : lower (lit "Jane Doe")
                = lower (lit "JANE" ++ lit " " ++ lit "DOE"))
    by (vm_compute; reflexivity).
  assert (H11 : sessions_of open_db 1 = []) by reflexivity.
  assert (H12 : Event.is_active window_event t_10_05 = true) by reflexivity.
  repeat (split; [assumption |]).
  destruct (@scan_finds_registered_user open_db 1 (lit "Jane Doe") student
              None (lit "DOE") (lit " ") (lit "JANE") t_10_05 t_10_05
              window_event H1 H2 H3 H4 H5 H6 H7 H8 H9 H10 H11 H12)
    as (db' & Hscan & _).
  exists db'. exact Hscan.
Defined.

(** ** Badges *)

Lemma pair_eqb_eq (p q : Z * Z) : pair_eqb p q = true <-> p = q.
Proof.
  destruct p as [a b], q as [c d]. unfold pair_eqb. cbn [fst snd].
  rewrite andb_true_iff, !Z.eqb_eq. split.
  - now intros [-> ->].
  - intros E. injection E as -> ->. now split.
Qed.

Lemma has_badge_pair (awards : list BadgeAward.t) (u : User.t) (b : Z) :
  User_has_badge awards u b =
  existsb (pair_eqb (User.id u, b)) (map award_pair awards).
Proof.
  unfold User_has_badge, User_badges.
  induction awards as [| a l IH]; [reflexivity |].
  cbn [filter map existsb]. unfold pair_eqb at 1, award_pair at 1.
  cbn [fst snd]. rewrite (Z.eqb_sym (User.id u)).
  destruct (BadgeAward.user_id a =? User.id u); cbn [map existsb andb orb];
    now rewrite IH.
Qed.

Lemma has_badge_app (t l : list BadgeAward.t) (u : User.t) (b : Z) :
  User_has_badge (t ++ l) u b = User_has_badge t u b || User_has_badge l u b.
Proof. rewrite !has_badge_pair, map_app. apply existsb_app. Qed.

Lemma has_badge_one (a : BadgeAward.t) (u : User.t) (b : Z) :
  User_has_badge [a] u b = pair_eqb (User.id u, b) (award_pair a).
Proof. rewrite has_badge_pair. cbn. apply orb_false_r. Qed.

Lemma pairs_with (t : list BadgeAward.t) (u : User.t) (b : Z) :
  filter (fun a => (BadgeAward.badge_id a =? b)
                   && (BadgeAward.user_id a =? User.id u)) t
  = filter (fun a => pair_eqb (award_pair a) (User.id u, b)) t.
Proof.
  apply filter_ext. intros a. unfold pair_eqb, award_pair. cbn [fst snd].
  apply andb_comm.
Qed.

Lemma no_badge_no_rows (t : list BadgeAward.t) (u : User.t) (b : Z) :
  User_has_badge t u b = false ->
  filter (fun a => pair_eqb (award_pair a) (User.id u, b)) t = [].
Proof.
  rewrite has_badge_pair. apply (@existsb_key_false _ _ award_pair _ pair_eqb_eq).
Qed.

Lemma delete_fresh (t : list BadgeAward.t) (row : BadgeAward.t) :
  BadgeAward.id row = next_id (map BadgeAward.id t) ->
  filter (fun x => negb (BadgeAward.id x =? BadgeAward.id row)) (t ++ [row])
  = t.
Proof.
  intros Hid. rewrite filter_app. cbn [filter]. rewrite Z.eqb_refl. cbn [negb].
  rewrite app_nil_r.
  assert (H : forall x, In x t ->
                negb (BadgeAward.id x =? BadgeAward.id row) = true).
  { intros x Hx. apply negb_true_iff. apply Z.eqb_neq. rewrite Hid.
    pose proof (@next_id_above (map BadgeAward.id t) (BadgeAward.id x)
                  (in_map BadgeAward.id t x Hx)). lia. }
  clear Hid. induction t as [| y l IH]; simpl; trivial.
  rewrite (H y (or_introl eq_refl)). f_equal. apply IH.
  intros x Hx. apply H. now right.
Qed.

Lemma has_badge_in (t : list BadgeAward.t) (u : User.t) (b : Z) :
  User_has_badge t u b = true <->
  exists a, In a t /\ award_pair a = (User.id u, b).
Proof.
  rewrite has_badge_pair, existsb_exists. split.
  - intros (p & Hp & E). apply in_map_iff in Hp. destruct Hp as (a & <- & Ha).
    apply pair_eqb_eq in E. exists a. now split.
  - intros (a & Ha & E). exists (award_pair a). split; [now apply in_map |].
    now apply pair_eqb_eq.
Qed.

Lemma badge_rows (t : list BadgeAward.t) (u : User.t) (b : Z) :
  User_has_badge t u b = true ->
  filter (fun a => pair_eqb (award_pair a) (User.id u, b)) t <> [].
Proof.
  intros H. apply has_badge_in in H. destruct H as (a & Ha & E) .
  intros F.
  assert (Hin : In a (filter (fun a => pair_eqb (award_pair a) (User.id u, b)) t)).
  { apply filter_In. split; trivial. now apply pair_eqb_eq. }
  rewrite F in Hin. contradiction.
Qed.

Lemma awards_ok_parts (t : list BadgeAward.t) :
  awards_ok t = true ->
  nodupb Z.eqb (map BadgeAward.id t) = true
  /\ nodupb pair_eqb (map award_pair t) = true.
Proof. unfold awards_ok. intros H. now apply andb_true_iff in H. Qed.

Lemma bool_iff (x y : bool) : (x = true <-> y = true) -> x = y.
Proof.
  destruct x, y; intros [H1 H2]; trivial.
  - symmetry. now apply H1.
  - now apply H2.
Qed.

(** X20: after [award_badge] the user has the badge, whatever the table
    was; awarding it again, at any later time, changes nothing; no row is
    removed; and whether any other user has any badge, or this user another
    badge, is as before. *)
Theorem award_badge_gives_once (awards : list BadgeAward.t) (now now' : Z)
  (u : User.t) (b : Z) :
  let awards' := User_award_badge now u b awards in
  User_has_badge awards' u b = true
  /\ User_award_badge now' u b awards' = awards'
  /\ (exists l, awards' = awards ++ l)
  /\ forall v c, (User.id v, c) <> (User.id u, b) ->
                 User_has_badge awards' v c = User_has_badge awards v c.
Proof.
  cbv zeta. unfold User_award_badge.
  destruct (User_has_badge awards u b) eqn:Hb; cbn [negb].
  - rewrite Hb. cbn [negb]. repeat split; trivial.
    exists []. now rewrite app_nil_r.
  - assert (Hnew : User_has_badge
                     (awards ++ [BadgeAward.mk
                                   (next_id (map BadgeAward.id awards))
                                   (User.id u) b now]) u b = true).
    { rewrite has_badge_app, has_badge_one.
      replace (pair_eqb _ _) with true; [apply orb_true_r |].
      symmetry. now apply pair_eqb_eq. }
    rewrite Hnew. cbn [negb]. repeat split; trivial.
    + eexists. reflexivity.
    + intros v c Hvc. rewrite has_badge_app, has_badge_one.
      replace (pair_eqb _ _) with false; [apply orb_false_r |].
      symmetry. destruct (pair_eqb _ _) eqn:E; trivial.
      apply pair_eqb_eq in E. contradiction.
Qed.

(** X21: for a user who does not have a badge, [remove_badge] after
    [award_badge] gives back the table as it was, row for row, and
    [remove_badge] alone leaves the table as it is. *)
Theorem remove_badge_undoes_award (awards : list BadgeAward.t) (now : Z)
  (u : User.t) (b : Z) :
  User_has_badge awards u b = false ->
  User_remove_badge u b (User_award_badge now u b awards) = Committed awards
  /\ User_remove_badge u b awards = Committed awards.
Proof.
  intros Hb. split.
  - unfold User_award_badge. rewrite Hb. cbn [negb].
    set (row := BadgeAward.mk (next_id (map BadgeAward.id awards)) (User.id u)
                              b now).
    unfold User_remove_badge.
    rewrite has_badge_app, has_badge_one, Hb.
    replace (pair_eqb (User.id u, b) (award_pair row)) with true
      by (symmetry; now apply pair_eqb_eq).
    cbn [orb]. rewrite pairs_with, filter_app, (no_badge_no_rows _ _ _ Hb).
    cbn [filter app]. 
    replace (pair_eqb (award_pair row) (User.id u, b)) with true
      by (symmetry; now apply pair_eqb_eq).
    f_equal. now apply delete_fresh.
  - unfold User_remove_badge. now rewrite Hb.
Qed.

Lemma remove_badge_undoes_award_witness :
  let t := [BadgeAward.mk 1 1 4 0; BadgeAward.mk 2 2 3 0] in
  User_has_badge t jane 3 = false
  /\ User_remove_badge jane 3 (User_award_badge t_10_05 jane 3 t)
     = Committed t
  /\ User_remove_badge jane 3 t = Committed t.
Proof.
  cbv zeta. split; [reflexivity |].
  apply (@remove_badge_undoes_award _ t_10_05 jane 3). reflexivity.
Defined.

(** X22: on a table where the keys of the awards are unique and no user
    holds a badge twice, [award_badge] keeps both, and [remove_badge]
    returns without raising, keeps both, leaves the user without the badge
    and changes no other answer of [has_badge]. *)
Theorem badges_stay_unique (awards : list BadgeAward.t) (now : Z)
  (u : User.t) (b : Z) :
  awards_ok awards = true ->
  awards_ok (User_award_badge now u b awards) = true
  /\ exists awards',
       User_remove_badge u b awards = Committed awards'
       /\ awards_ok awards' = true
       /\ User_has_badge awards' u b = false
       /\ forall v c, (User.id v, c) <> (User.id u, b) ->
                      User_has_badge awards' v c = User_has_badge awards v c.
Proof.
  intros Hok. destruct (awards_ok_parts _ Hok) as [Hid Hpair]. split.
  - unfold User_award_badge.
    destruct (User_has_badge awards u b) eqn:Hb; cbn [negb]; trivial.
    unfold awards_ok. apply andb_true_iff. split.
    + apply (@nodupb_snoc _ _ BadgeAward.id _ Z_eqb_eq); trivial.
      cbn [BadgeAward.id]. apply next_id_fresh.
    + apply (@nodupb_snoc _ _ award_pair _ pair_eqb_eq); trivial.
      rewrite has_badge_pair in Hb. exact Hb.
  - unfold User_remove_badge.
    destruct (User_has_badge awards u b) eqn:Hb.
    + rewrite pairs_with.
      destruct (@filter_key_cases _ _ award_pair _ pair_eqb_eq
                  (User.id u, b) awards Hpair) as [F | (x & Hx & Kx & F)].
      * now apply badge_rows in Hb.
      * rewrite F. eexists. split; [reflexivity |].
        set (keep := fun y => negb (BadgeAward.id y =? BadgeAward.id x)).
        assert (Hkeep : forall y, In y awards ->
                          (keep y = true <-> y <> x)).
        { intros y Hy. unfold keep. rewrite negb_true_iff, Z.eqb_neq. split.
          - intros N E. now subst y.
          - intros N E. apply N.
            exact (@nodupb_key_inj _ _ BadgeAward.id _ Z_eqb_eq y x awards
                     Hid Hy Hx E). }
        split; [| split].
        -- unfold awards_ok. apply andb_true_iff. split.
           ++ now apply (@nodupb_filter _ _ BadgeAward.id).
           ++ now apply (@nodupb_filter _ _ award_pair).
        -- destruct (User_has_badge (filter keep awards) u b) eqn:E; trivial.
           apply has_badge_in in E. destruct E as (y & Hy & Ky).
           apply filter_In in Hy. destruct Hy as [Hy Hk].
           apply (Hkeep y Hy) in Hk. exfalso. apply Hk.
           apply (@nodupb_key_inj _ _ award_pair _ pair_eqb_eq y x awards
                    Hpair Hy Hx). congruence.
        -- intros v c Hvc. apply bool_iff. rewrite !has_badge_in. split.
           ++ intros (y & Hy & Ky). apply filter_In in Hy. exists y.
              split; [apply Hy | trivial].
           ++ intros (y & Hy & Ky). exists y. split; trivial.
              apply filter_In. split; trivial. apply (Hkeep y Hy).
              intros ->. congruence.
    + exists awards. repeat split; trivial.
Qed.

Lemma badges_stay_unique_witness :
  let t := [BadgeAward.mk 1 1 3 0; BadgeAward.mk 2 1 4 0;
            BadgeAward.mk 3 8 3 0] in
  awards_ok t = true
  /\ awards_ok (User_award_badge 5 jane 3 t) = true
  /\ exists t',
       User_remove_badge jane 3 t = Committed t'
       /\ awards_ok t' = true
       /\ User_has_badge t' jane 3 = false
       /\ forall v c, (User.id v, c) <> (User.id jane, 3) ->
                      User_has_badge t' v c = User_has_badge t v c.
Proof.
  cbv zeta. split; [reflexivity |].
  apply (@badges_stay_unique _ 5 jane 3). reflexivity.
Defined.

(** X23: [remove_badge] never reaches the deletion of [None]: when
    [has_badge] holds the query has a row. It raises exactly when the table
    holds the user's badge more than once, where [one_or_none] raises. *)
Theorem remove_badge_failure (awards : list BadgeAward.t) (u : User.t)
  (b : Z) :
  User_remove_badge u b awards <> BadgeRaise UnmappedInstanceError
  /\ (User_remove_badge u b awards = BadgeRaise BadgeMultipleResultsFound
      <-> (1 < List.length
                 (filter (fun a => ((BadgeAward.user_id a =? User.id u)
                                    && (BadgeAward.badge_id a =? b))%Z)
                         awards))%nat).
Proof.
  assert (F : filter (fun a => (BadgeAward.user_id a =? User.id u)
                               && (BadgeAward.badge_id a =? b)) awards
              = filter (fun a => pair_eqb (award_pair a) (User.id u, b)) awards)
    by reflexivity.
  rewrite F. unfold User_remove_badge.
  destruct (User_has_badge awards u b) eqn:Hb.
  - apply badge_rows in Hb. rewrite pairs_with.
    destruct (filter _ awards) as [| x [| y l]]; [contradiction | |]; cbn [List.length].
    + split; [discriminate |]. split; [discriminate | lia].
    + split; [discriminate |]. split; [lia | reflexivity].
  - rewrite (no_badge_no_rows _ _ _ Hb). cbn [List.length].
    split; [discriminate |]. split; [discriminate | lia].
Qed.
